(** * Pokemon challenge: request cache, in-flight deduplication, battle outcome

    A shallow embedding of the two source files of the repository:
    the component [GetRandomPokemon] (cache, request registry, fetchers,
    random id selection, the cancellable round) and the component
    [BattleField] ([determineBattleOutcome]).

    Conventions of the embedding.
    - A JavaScript [Map<string, T>] whose iteration order is observed
      (the store of [Cache]) is an association list in insertion order.
      A [Map] whose order is never observed ([activeRequests]) is a [gmap].
    - A JavaScript number that the program only uses as an integer is a [Z];
      [number | null] is [option Z].
    - [Math.random()] is an input: a rational [r] with [0 <= r < 1], supplied
      by the environment.  Products and floors are exact.
    - The promise created by [axios.get(..).then(..).catch(..)] is a handle
      (an index into the list of requests started so far).  The promise
      returned by an [async] function adopts whatever its body returns, so
      the result of [getPokemon] / [getMove] is either a value that is
      available at once or the handle the caller ends up waiting on. *)

From stdpp Require Import gmap strings list fin_maps pretty.
From Stdlib Require Import Ascii ZArith QArith Qround Lia.

Local Open Scope Z_scope.

(** ** Part I. The program *)

(** *** JavaScript [Map<string, T>] with observable insertion order *)

Module JsMap.
Section Ops.
Context {T : Type}.

(** [m.get(k)]: the value stored under [k], [undefined] when absent. *)
Fixpoint get (k : string) (m : list (string * T)) : option T :=
  match m with
  | [] => None
  | (k', v) :: m' => if decide (k' = k) then Some v else get k m'
  end.

(** [m.set(k, v)]: an existing key keeps its position and takes the new
    value; a new key is appended. *)
Fixpoint set (k : string) (v : T) (m : list (string * T)) : list (string * T) :=
  match m with
  | [] => [(k, v)]
  | (k', v') :: m' =>
      if decide (k' = k) then (k', v) :: m' else (k', v') :: set k v m'
  end.

(** [m.delete(k)]. *)
Definition delete (k : string) (m : list (string * T)) : list (string * T) :=
  filter (λ e, e.1 ≠ k) m.

(** [m.size]. *)
Definition size (m : list (string * T)) : Z := Z.of_nat (length m).

(** [m.keys().next().value]: the oldest key, [undefined] on an empty map. *)
Definition first_key (m : list (string * T)) : option string :=
  fst <$> head m.

Definition keys (m : list (string * T)) : list string := fst <$> m.

End Ops.
End JsMap.

(** *** class Cache<T> *)

Module Cache.
Section Ops.
Context {T : Type}.

Record t := mk { cache : list (string * T); maxSize : Z }.

(** [new Cache<T>(maxSize)]. *)
Definition new (maxSize : Z) : t := {| cache := []; maxSize := maxSize |}.

Definition get (key : string) (c : t) : option T := JsMap.get key (cache c).

(** [set]: when the store has reached [maxSize] the first key of the store is
    deleted ([delete(undefined)] on an empty store removes nothing), then the
    pair is stored.  The test does not look at [key]. *)
Definition set (key : string) (value : T) (c : t) : t :=
  let store :=
    if JsMap.size (cache c) >=? maxSize c then
      match JsMap.first_key (cache c) with
      | Some firstKey => JsMap.delete firstKey (cache c)
      | None => cache c
      end
    else cache c in
  {| cache := JsMap.set key value store; maxSize := maxSize c |}.

Definition clear (c : t) : t := {| cache := []; maxSize := maxSize c |}.

(** A sequence of calls on one cache. *)
Inductive op := OpGet (key : string) | OpSet (key : string) (value : T).

Definition apply (c : t) (o : op) : t :=
  match o with
  | OpGet _ => c
  | OpSet key value => set key value c
  end.

Definition run (ops : list op) (c : t) : t := foldl apply c ops.

(** The pairs written by the [set] calls of a sequence, oldest first. *)
Definition written (ops : list op) : list (string * T) :=
  omap (λ o, match o with OpSet k v => Some (k, v) | OpGet _ => None end) ops.

End Ops.
Global Arguments t : clear implicits.
Global Arguments op : clear implicits.
End Cache.

(** *** Records of the catalogue *)

(** [moves[i].move]: a move of a pokemon, by name and by the URL to fetch. *)
Record MoveRef := { ref_name : string; ref_url : string }.

Module Pokemon.
Record t := mk { name : string; sprites_front_default : string; moves : list MoveRef }.
End Pokemon.

(** [power : number | null], for the integer powers of the catalogue; a
    [NaN] is not represented. *)
Module Move.
Record t := mk { name : string; power : option Z }.
End Move.

(** The registry is a [Map<string, Promise<any>>]: what a request promise
    settles with is a pokemon or a move, and the static type of the caller
    does not decide which. *)
Inductive Value := VPokemon (p : Pokemon.t) | VMove (m : Move.t).

(** A thrown value: an [Error] object with its message, or anything else. *)
Inductive Thrown := ErrorObject (message : string) | NotAnError.

(** [id.toString()] for an integer id (decimal digits, a leading minus sign
    for a negative one). *)
Definition toString (id : Z) : string := pretty id.

(** *** The request layer: caches, registry, requests in flight *)

(** What an HTTP request was started for. *)
Inductive Producer :=
  | FetchPokemon (id : Z)
  | FetchMove (url name : string).

(** The key under which the request is registered in [activeRequests]. *)
Definition producer_key (p : Producer) : string :=
  match p with
  | FetchPokemon id => toString id
  | FetchMove _ name => name
  end.

(** State of the promise [axios.get(..).then(..).catch(..)].  A rejection
    remembers how many requests had settled before it. *)
Inductive Status :=
  | Pending
  | Fulfilled (v : Value)
  | Rejected (reason : Thrown) (at_time : nat).

Record Request := { producer : Producer; status : Status }.

(** The module-level state: [pokemonCache], [moveCache], [activeRequests],
    and every request started so far (a promise is its index in [requests]);
    [settled] counts the requests that have settled. *)
Record Net := {
  pokemonCache : Cache.t Pokemon.t;
  moveCache : Cache.t Move.t;
  activeRequests : gmap string nat;
  requests : list Request;
  settled : nat
}.

Definition Net_init : Net := {|
  pokemonCache := Cache.new 50;
  moveCache := Cache.new 200;
  activeRequests := ∅;
  requests := [];
  settled := 0
|}.

(** What the body of [getPokemon] / [getMove] returns: a cached value, or a
    request promise. *)
Inductive Promise := Resolved (v : Value) | RequestPromise (h : nat).

Definition getPokemon (id : Z) (st : Net) : Net * Promise :=
  let cacheKey := toString id in
  match Cache.get cacheKey (pokemonCache st) with
  | Some cached => (st, Resolved (VPokemon cached))
  | None =>
      match activeRequests st !! cacheKey with
      | Some h => (st, RequestPromise h)
      | None =>
          let request := length (requests st) in
          ({| pokemonCache := pokemonCache st;
              moveCache := moveCache st;
              activeRequests := <[cacheKey := request]> (activeRequests st);
              requests := requests st ++ [{| producer := FetchPokemon id; status := Pending |}];
              settled := settled st |},
           RequestPromise request)
      end
  end.

Definition getMove (url name : string) (st : Net) : Net * Promise :=
  match Cache.get name (moveCache st) with
  | Some cached => (st, Resolved (VMove cached))
  | None =>
      match activeRequests st !! name with
      | Some h => (st, RequestPromise h)
      | None =>
          let request := length (requests st) in
          ({| pokemonCache := pokemonCache st;
              moveCache := moveCache st;
              activeRequests := <[name := request]> (activeRequests st);
              requests := requests st ++ [{| producer := FetchMove url name; status := Pending |}];
              settled := settled st |},
           RequestPromise request)
      end
  end.

(** What the server answers: the body of a pokemon, or the [power] field of
    a move; or the request fails with a thrown value. *)
Inductive ResponseData := PokemonData (p : Pokemon.t) | MoveData (power : option Z).
Inductive Outcome := Success (data : ResponseData) | Failure (error : Thrown).

(** The [.then] callback of a pokemon request, the [.then] callback of a move
    request, and the [.catch] callback of both. *)
Definition then_pokemon (h : nat) (id : Z) (data : Pokemon.t) (st : Net) : Net :=
  let cacheKey := toString id in
  {| pokemonCache := Cache.set cacheKey data (pokemonCache st);
     moveCache := moveCache st;
     activeRequests := delete cacheKey (activeRequests st);
     requests := <[h := {| producer := FetchPokemon id; status := Fulfilled (VPokemon data) |}]> (requests st);
     settled := S (settled st) |}.

Definition then_move (h : nat) (url name : string) (power : option Z) (st : Net) : Net :=
  let move := {| Move.name := name; Move.power := power |} in
  {| pokemonCache := pokemonCache st;
     moveCache := Cache.set name move (moveCache st);
     activeRequests := delete name (activeRequests st);
     requests := <[h := {| producer := FetchMove url name; status := Fulfilled (VMove move) |}]> (requests st);
     settled := S (settled st) |}.

Definition catch_request (h : nat) (p : Producer) (error : Thrown) (st : Net) : Net :=
  {| pokemonCache := pokemonCache st;
     moveCache := moveCache st;
     activeRequests := delete (producer_key p) (activeRequests st);
     requests := <[h := {| producer := p; status := Rejected error (settled st) |}]> (requests st);
     settled := S (settled st) |}.

(** The HTTP request behind promise [h] settles.  Only a pending request can
    settle, and a pokemon endpoint answers with a pokemon, a move endpoint
    with a move; anything else is not a step of the system. *)
Definition settle (h : nat) (o : Outcome) (st : Net) : option Net :=
  match requests st !! h with
  | Some {| producer := p; status := Pending |} =>
      match o, p with
      | Success (PokemonData data), FetchPokemon id => Some (then_pokemon h id data st)
      | Success (MoveData power), FetchMove url name => Some (then_move h url name power st)
      | Failure error, _ => Some (catch_request h p error st)
      | _, _ => None
      end
  | _ => None
  end.

(** Calls and settlements as seen by the request layer, whoever the callers
    are. *)
Inductive NetEvent :=
  | CallGetPokemon (id : Z)
  | CallGetMove (url name : string)
  | Settle (h : nat) (o : Outcome).

Definition net_step (e : NetEvent) (st : Net) : option Net :=
  match e with
  | CallGetPokemon id => Some (getPokemon id st).1
  | CallGetMove url name => Some (getMove url name st).1
  | Settle h o => settle h o st
  end.

Fixpoint net_run (es : list NetEvent) (st : Net) : option Net :=
  match es with
  | [] => Some st
  | e :: es' =>
      match net_step e st with
      | Some st' => net_run es' st'
      | None => None
      end
  end.

(** The status of request promise [h]; a handle that was never created does
    not settle. *)
Definition status_of (h : nat) (st : Net) : Status :=
  match requests st !! h with
  | Some r => status r
  | None => Pending
  end.

Definition pending (h : nat) (k : string) (st : Net) : Prop :=
  ∃ p, requests st !! h = Some {| producer := p; status := Pending |} ∧ producer_key p = k.

(** *** Vocabulary of the statements about the request layer *)

(** The bookkeeping invariant of the request layer: the pending requests
    and the entries of [activeRequests] are in one-to-one correspondence
    through [producer_key], and a pending request is for a key that its
    cache does not hold. *)
Record Net_inv (st : Net) : Prop := {
  inv_registered : ∀ h p,
    requests st !! h = Some {| producer := p; status := Pending |} →
    activeRequests st !! producer_key p = Some h;
  inv_in_flight : ∀ k h, activeRequests st !! k = Some h → pending h k st;
  inv_pokemon_miss : ∀ h id,
    requests st !! h = Some {| producer := FetchPokemon id; status := Pending |} →
    Cache.get (toString id) (pokemonCache st) = None;
  inv_move_miss : ∀ h url name,
    requests st !! h = Some {| producer := FetchMove url name; status := Pending |} →
    Cache.get name (moveCache st) = None
}.

(** A state the request layer can be in: whatever calls and settlements
    happened since the module was loaded. *)
Definition Net_reachable (st : Net) : Prop :=
  ∃ es, net_run es Net_init = Some st.

(** One call of a fetcher, named by the producer it starts on a miss:
    [getPokemon(id)] or [getMove(url, name)]. *)
Definition resolve (p : Producer) (st : Net) : Net * Promise :=
  match p with
  | FetchPokemon id => getPokemon id st
  | FetchMove url name => getMove url name st
  end.

(** What the cache of a fetcher holds under the key of the call. *)
Definition cached (p : Producer) (st : Net) : option Value :=
  match p with
  | FetchPokemon id => VPokemon <$> Cache.get (toString id) (pokemonCache st)
  | FetchMove _ name => VMove <$> Cache.get name (moveCache st)
  end.

(** How the record of one request may change over time: the producer
    stays, and once the status is no longer [Pending] nothing changes. *)
Definition evolves (r r' : Request) : Prop :=
  producer r' = producer r ∧ (status r = Pending ∨ r' = r).

(** *** BattleField: the outcome of a battle *)

Module BattleField.

Record PokemonInfo := { name : string; sprites_front_default : string }.

Record PokemonWithMove := { pokemon : PokemonInfo; move : Move.t }.

Section Messages.

(** [String.prototype.toUpperCase] is a library function; the messages are
    defined for any interpretation of it. *)
Variable toUpperCase : string → string.

(** [BATTLE_MESSAGES]. *)
Definition DECISIVE_BLOW (winner move loser : string) : string :=
  toUpperCase winner +:+ " lands a decisive blow with " +:+ toUpperCase move
    +:+ ", knocking out " +:+ toUpperCase loser +:+ "!".

Definition TIE : string := "It's a tie! Both Pokemon are evenly matched!".

Definition LOADING : string := "Preparing for battle...".

Definition determineBattleOutcome (p1 p2 : PokemonWithMove) : string :=
  let power1 := Move.power (move p1) in
  let power2 := Move.power (move p2) in
  match power1, power2 with
  | Some power1, Some power2 =>
      if power1 >? power2 then
        DECISIVE_BLOW (name (pokemon p1)) (Move.name (move p1)) (name (pokemon p2))
      else if power2 >? power1 then
        DECISIVE_BLOW (name (pokemon p2)) (Move.name (move p2)) (name (pokemon p1))
      else TIE
  | None, Some _ =>
      DECISIVE_BLOW (name (pokemon p2)) (Move.name (move p2)) (name (pokemon p1))
  | Some _, None =>
      DECISIVE_BLOW (name (pokemon p1)) (Move.name (move p1)) (name (pokemon p2))
  | None, None => TIE
  end.

(** [isValidBattle]: at least two entries, and every entry has a non-empty
    pokemon name and a non-empty move name (its [sprites] object is there by
    type). *)
Definition isValidBattle (pokemons : list PokemonWithMove) : bool :=
  (2 <=? length pokemons)%nat &&
  forallb (λ p, negb (String.eqb (name (pokemon p)) "") &&
                negb (String.eqb (Move.name (move p)) "") && true) pokemons.

(** [battleOutcome]: the placeholder unless the battle is valid, else the
    outcome of the first two entries (a valid battle has them). *)
Definition battleOutcome (pokemons : list PokemonWithMove) : string :=
  if negb (isValidBattle pokemons) then LOADING
  else
    match pokemons with
    | p1 :: p2 :: _ => determineBattleOutcome p1 p2
    | _ => LOADING
    end.

End Messages.

(** [toUpperCase] on ASCII text, as the names of the catalogue are: the
    letters a-z are raised, every other byte is kept. *)
Definition ascii_toUpperCase_char (c : ascii) : ascii :=
  let n := nat_of_ascii c in
  if ((97 <=? n)%nat && (n <=? 122)%nat)%bool then ascii_of_nat (n - 32) else c.

Fixpoint ascii_toUpperCase (s : string) : string :=
  match s with
  | EmptyString => EmptyString
  | String c s' => String (ascii_toUpperCase_char c) (ascii_toUpperCase s')
  end.

(** Whether the character [c] occurs in [s]. *)
Fixpoint occurs (c : ascii) (s : string) : bool :=
  match s with
  | EmptyString => false
  | String c' s' => bool_decide (c' = c) || occurs c s'
  end.

(** A contestant of the examples. *)
Definition contestant (pokemon_name move_name : string) (power : option Z) : PokemonWithMove :=
  {| pokemon := {| name := pokemon_name; sprites_front_default := "" |};
     move := {| Move.name := move_name; Move.power := power |} |}.

End BattleField.

(** *** getRandomPokemonIds *)

(** [Math.floor(r * n)] for a draw [r] of [Math.random()], with the exact
    product.  The program multiplies two doubles, and the rounded product
    can reach the next integer, so for some draws the program gets the
    integer above; in both cases the result lies between 0 and [n - 1] for
    the sizes at hand.  The general statements below do not depend on which
    id a given draw stands for. *)
Definition random_below (r : Q) (n : Z) : Z := Qfloor (r * inject_Z n).

(** What [Math.random()] may return. *)
Definition unit_interval (r : Q) : Prop := (0 <= r)%Q ∧ (r < 1)%Q.

(** [ids.add(x)] on a [Set<number>], whose iteration order is insertion
    order. *)
Definition Set_add (x : Z) (ids : list Z) : list Z :=
  if decide (x ∈ ids) then ids else ids ++ [x].

(** The loop [while (ids.size < count) ids.add(..)], one draw per iteration;
    [None] when the draws supplied run out before the loop ends. *)
Fixpoint getRandomPokemonIds_loop (draws : list Q) (count maxId : Z) (ids : list Z)
  : option (list Z) :=
  if Z.of_nat (length ids) <? count then
    match draws with
    | [] => None
    | r :: draws' =>
        getRandomPokemonIds_loop draws' count maxId (Set_add (random_below r maxId + 1) ids)
    end
  else Some ids.

Definition getRandomPokemonIds (draws : list Q) (count maxId : Z) : option (list Z) :=
  getRandomPokemonIds_loop draws count maxId [].

(** *** The component GetRandomPokemon: one round of fetching *)

(** An element of the state [pokemons].  At run time [move] is whatever
    the promise of [getMove] was fulfilled with. *)
Record PokemonWithMove := { pokemon : Pokemon.t; move : Value }.

Definition no_moves_available : Move.t :=
  {| Move.name := "No moves available"; Move.power := None |}.

(** The [TypeError] of reading a property of [undefined]; the text of the
    message is the engine's. *)
Definition typeError : Thrown := ErrorObject "Cannot read properties of undefined".

(** [a[i]] for an integer index. *)
Definition array_get {A : Type} (a : list A) (i : Z) : option A :=
  if 0 <=? i then a !! Z.to_nat i else None.

(** Where a call of the arrow function [async (p) => ..] stands once it has
    run up to its first [await]. *)
Inductive Inner :=
  | InnerReturned (pwm : PokemonWithMove)
  | InnerThrew (e : Thrown)
  | InnerAwaiting (p : Pokemon.t) (m : Promise).

(** The arrow function mapped over [[p1, p2]], with the draw [r] for its
    call of [Math.random()].  On a value without [moves] the test
    [p.moves.length === 0] throws. *)
Definition attachMove (p : Value) (r : Q) (st : Net) : Net * Inner :=
  match p with
  | VMove _ => (st, InnerThrew typeError)
  | VPokemon p =>
      if decide (length (Pokemon.moves p) = 0%nat) then
        (st, InnerReturned {| pokemon := p; move := VMove no_moves_available |})
      else
        match array_get (Pokemon.moves p)
                (random_below r (Z.of_nat (length (Pokemon.moves p)))) with
        | Some randomMove =>
            let '(st', m) := getMove (ref_url randomMove) (ref_name randomMove) st in
            (st', InnerAwaiting p m)
        | None => (st, InnerThrew typeError)
        end
  end.

(** An input of [Promise.all] as it stands: a rejection carries the time of
    the request that rejected, or [None] when the input was rejected before
    [Promise.all] was called. *)
Inductive Input (X : Type) :=
  | InPending
  | InFulfilled (x : X)
  | InRejected (e : Thrown) (when : option nat).
Global Arguments InPending {X}.
Global Arguments InFulfilled {X} x.
Global Arguments InRejected {X} e when.

Inductive All (X : Type) :=
  | AllPending
  | AllFulfilled (x1 x2 : X)
  | AllRejected (e : Thrown).
Global Arguments AllPending {X}.
Global Arguments AllFulfilled {X} x1 x2.
Global Arguments AllRejected {X} e.

Definition earlier (t1 t2 : option nat) : bool :=
  match t1, t2 with
  | None, Some _ => true
  | Some a, Some b => (a <? b)%nat
  | _, None => false
  end.

(** [Promise.all([i1, i2])]: rejected with the reason of the input that
    rejected first (the first of the array when neither came before the
    other), fulfilled when both are, pending otherwise. *)
Definition promise_all {X : Type} (i1 i2 : Input X) : All X :=
  match i1, i2 with
  | InRejected e1 t1, InRejected e2 t2 =>
      if earlier t2 t1 then AllRejected e2 else AllRejected e1
  | InRejected e1 _, _ => AllRejected e1
  | _, InRejected e2 _ => AllRejected e2
  | InFulfilled x1, InFulfilled x2 => AllFulfilled x1 x2
  | _, _ => AllPending
  end.

(** The promise returned by [getPokemon] / [getMove], as an input. *)
Definition promise_input (st : Net) (m : Promise) : Input Value :=
  match m with
  | Resolved v => InFulfilled v
  | RequestPromise h =>
      match status_of h st with
      | Pending => InPending
      | Fulfilled v => InFulfilled v
      | Rejected e t => InRejected e (Some t)
      end
  end.

(** The promise returned by the arrow function, as an input. *)
Definition inner_input (st : Net) (i : Inner) : Input PokemonWithMove :=
  match i with
  | InnerReturned pwm => InFulfilled pwm
  | InnerThrew e => InRejected e None
  | InnerAwaiting p m =>
      match promise_input st m with
      | InPending => InPending
      | InFulfilled v => InFulfilled {| pokemon := p; move := v |}
      | InRejected e t => InRejected e t
      end
  end.

(** Where a call of [getTwoRandomPokemons] stands: suspended at the first
    [await], suspended at the second, or finished. *)
Inductive Stage :=
  | AwaitPokemons (p1 p2 : Promise)
  | AwaitMoves (m1 m2 : Inner)
  | Returned.

(** A call of [getTwoRandomPokemons]: [aborted] is
    [abortController.signal.aborted] of the controller the call created. *)
Record Round := { aborted : bool; stage : Stage }.

(** The component: the module state, the calls of [getTwoRandomPokemons]
    made so far, [abortControllerRef.current] (the round whose controller it
    holds), and the React state [pokemons], [loading], [error]. *)
Record App := {
  net : Net;
  rounds : list Round;
  abortControllerRef : option nat;
  pokemons : list PokemonWithMove;
  loading : bool;
  error : option string
}.

Definition App_init : App := {|
  net := Net_init;
  rounds := [];
  abortControllerRef := None;
  pokemons := [];
  loading := false;
  error := None
|}.

(** [abortControllerRef.current.abort()] when there is a current controller. *)
Definition abort_current (st : App) : list Round :=
  match abortControllerRef st with
  | Some c => alter (λ rd, {| aborted := true; stage := stage rd |}) c (rounds st)
  | None => rounds st
  end.

(** [getTwoRandomPokemons] up to its first [await], with the draws for
    [getRandomPokemonIds(2, 151)]: no step when the draws run out before the
    loop ends.  The destructuring [[id1, id2]] takes the first two ids. *)
Definition getTwoRandomPokemons (draws : list Q) (st : App) : option App :=
  let maxId := 151 in
  match getRandomPokemonIds draws 2 maxId with
  | Some (id1 :: id2 :: _) =>
      let '(n1, p1) := getPokemon id1 (net st) in
      let '(n2, p2) := getPokemon id2 n1 in
      Some {| net := n2;
              rounds := abort_current st ++ [{| aborted := false; stage := AwaitPokemons p1 p2 |}];
              abortControllerRef := Some (length (rounds st));
              pokemons := pokemons st;
              loading := true;
              error := None |}
  | _ => None
  end.

(** The cleanup of the effect: abort the current controller. *)
Definition cleanup (st : App) : App :=
  {| net := net st; rounds := abort_current st;
     abortControllerRef := abortControllerRef st;
     pokemons := pokemons st; loading := loading st; error := error st |}.

(** [err instanceof Error ? err.message : "Failed to fetch Pokémon"]. *)
Definition error_message (err : Thrown) : string :=
  match err with
  | ErrorObject message => message
  | NotAnError => "Failed to fetch Pokémon"
  end.

Definition with_stage (r : nat) (s : Stage) (st : App) : App :=
  {| net := net st;
     rounds := alter (λ rd, {| aborted := aborted rd; stage := s |}) r (rounds st);
     abortControllerRef := abortControllerRef st;
     pokemons := pokemons st; loading := loading st; error := error st |}.

(** The [catch] block of the round [rd]. *)
Definition catch_block (rd : Round) (err : Thrown) (st : App) : App :=
  if aborted rd then st
  else {| net := net st; rounds := rounds st;
          abortControllerRef := abortControllerRef st;
          pokemons := []; loading := false; error := Some (error_message err) |}.

(** The end of the [try] block of the round [rd]. *)
Definition show_pokemons (rd : Round) (pokemonsWithMoves : list PokemonWithMove) (st : App) : App :=
  if aborted rd then st
  else {| net := net st; rounds := rounds st;
          abortControllerRef := abortControllerRef st;
          pokemons := pokemonsWithMoves; loading := false; error := error st |}.

(** The round [r] resumes after the [await] it is suspended at, which
    requires the awaited [Promise.all] to have settled; [q1], [q2] are the
    draws for the two calls of the arrow function. *)
Definition resume (r : nat) (q1 q2 : Q) (st : App) : option App :=
  match rounds st !! r with
  | None => None
  | Some rd =>
      match stage rd with
      | AwaitPokemons a1 a2 =>
          match promise_all (promise_input (net st) a1) (promise_input (net st) a2) with
          | AllPending => None
          | AllRejected err => Some (with_stage r Returned (catch_block rd err st))
          | AllFulfilled p1 p2 =>
              if aborted rd then Some (with_stage r Returned st)
              else
                let '(n1, m1) := attachMove p1 q1 (net st) in
                let '(n2, m2) := attachMove p2 q2 n1 in
                Some (with_stage r (AwaitMoves m1 m2)
                        {| net := n2; rounds := rounds st;
                           abortControllerRef := abortControllerRef st;
                           pokemons := pokemons st; loading := loading st;
                           error := error st |})
          end
      | AwaitMoves m1 m2 =>
          match promise_all (inner_input (net st) m1) (inner_input (net st) m2) with
          | AllPending => None
          | AllRejected err => Some (with_stage r Returned (catch_block rd err st))
          | AllFulfilled x1 x2 => Some (with_stage r Returned (show_pokemons rd [x1; x2] st))
          end
      | Returned => None
      end
  end.

(** A response arrives for the request [h]. *)
Definition respond (h : nat) (o : Outcome) (st : App) : option App :=
  match settle h o (net st) with
  | Some n => Some {| net := n; rounds := rounds st;
                      abortControllerRef := abortControllerRef st;
                      pokemons := pokemons st; loading := loading st; error := error st |}
  | None => None
  end.

(** What can happen to the component.  A continuation runs some time
    after the promise it awaits has settled; making it an event of its own
    allows every order in which the scheduler may run things. *)
Inductive Event :=
  | StartRound (draws : list Q)
  | Response (h : nat) (o : Outcome)
  | Resume (r : nat) (q1 q2 : Q)
  | Cleanup.

Definition step (e : Event) (st : App) : option App :=
  match e with
  | StartRound draws => getTwoRandomPokemons draws st
  | Response h o => respond h o st
  | Resume r q1 q2 => resume r q1 q2 st
  | Cleanup => Some (cleanup st)
  end.

Fixpoint run (es : list Event) (st : App) : option App :=
  match es with
  | [] => Some st
  | e :: es' =>
      match step e st with
      | Some st' => run es' st'
      | None => None
      end
  end.

(** Every round but the one [abortControllerRef] points at is aborted, and
    [abortControllerRef] points at a round that exists. *)
Record App_inv (st : App) : Prop := {
  inv_superseded : ∀ r rd, rounds st !! r = Some rd → abortControllerRef st ≠ Some r →
                           aborted rd = true;
  inv_current : ∀ c, abortControllerRef st = Some c → (c < length (rounds st))%nat
}.

(** A state the component can be in. *)
Definition App_reachable (st : App) : Prop :=
  ∃ es, run es App_init = Some st.

(** *** Vocabulary of the further properties *)

(** A successful response, the one event that writes to a cache. *)
Definition is_success (e : NetEvent) : bool :=
  match e with
  | Settle _ (Success _) => true
  | _ => false
  end.

Definition is_cleanup (e : Event) : bool :=
  match e with Cleanup => true | _ => false end.

Definition is_start (e : Event) : bool :=
  match e with StartRound _ => true | _ => false end.

(** What the three pieces of React state have to do with each other and
    with the round [abortControllerRef] points at. *)
Record Visible_inv (st : App) : Prop := {
  vis_loading : loading st = true → error st = None;
  vis_error : error st ≠ None → pokemons st = [];
  vis_pair : pokemons st = [] ∨ length (pokemons st) = 2%nat;
  vis_live : ∀ c rd, abortControllerRef st = Some c → rounds st !! c = Some rd →
                     aborted rd = false → stage rd ≠ Returned → error st = None
}.

(** *** Sample data used in examples *)

Definition thunder_shock : MoveRef :=
  {| ref_name := "thunder-shock"; ref_url := "https://pokeapi.co/api/v2/move/84/" |}.

Definition pikachu : Pokemon.t :=
  {| Pokemon.name := "pikachu";
     Pokemon.sprites_front_default := "sprites/pokemon/25.png";
     Pokemon.moves := [thunder_shock] |}.

(** A pokemon whose list of moves is empty. *)
Definition moveless : Pokemon.t :=
  {| Pokemon.name := "moveless";
     Pokemon.sprites_front_default := "sprites/pokemon/0.png";
     Pokemon.moves := [] |}.

(** A first round is started, a second one supersedes it, and only then do
    the two pokemons of the first round arrive. *)
Definition first_round : list Event := [StartRound [(1 # 2)%Q; (0 # 1)%Q]].

Definition second_round_draws : list Q := [(1 # 3)%Q; (2 # 3)%Q].

Definition late_responses : list Event :=
  [Response 0 (Success (PokemonData pikachu)); Response 1 (Success (PokemonData moveless))].

Definition first_late_response : list Event :=
  [Response 0 (Success (PokemonData pikachu))].

Definition after_first_late_response : App :=
  default App_init
    (run (first_round ++ [StartRound second_round_draws] ++ first_late_response) App_init).

Definition after_late_responses : App :=
  default App_init
    (run (first_round ++ [StartRound second_round_draws] ++ late_responses) App_init).

(** ** Part II. Properties *)

(** *** The ordered map *)

Section JsMapFacts.
Context {T : Type}.
Implicit Types (m : list (string * T)) (k : string) (v : T).

Lemma JsMap_get_set_eq k v m : JsMap.get k (JsMap.set k v m) = Some v.
Proof.
  induction m as [|[k' v'] m IH]; simpl.
  - by rewrite decide_True.
  - destruct (decide (k' = k)) as [->|Hne]; simpl.
    + by rewrite decide_True.
    + by rewrite decide_False.
Qed.

Lemma JsMap_get_set_ne k k' v m :
  k ≠ k' → JsMap.get k' (JsMap.set k v m) = JsMap.get k' m.
Proof.
  intros Hne. induction m as [|[k0 v0] m IH]; simpl.
  - by rewrite decide_False.
  - destruct (decide (k0 = k)) as [->|Hk0]; simpl.
    + by rewrite !decide_False.
    + destruct (decide (k0 = k')); [done | apply IH].
Qed.

Lemma JsMap_get_None_keys k m : JsMap.get k m = None ↔ k ∉ JsMap.keys m.
Proof.
  unfold JsMap.keys. induction m as [|[k' v'] m IH]; simpl.
  - split; [intros _; apply not_elem_of_nil | done].
  - rewrite not_elem_of_cons. destruct (decide (k' = k)) as [->|Hne].
    + split; [done | intros [Hk _]; by destruct Hk].
    + rewrite IH. split; [intros ?; split; [congruence | done] | by intros [_ ?]].
Qed.

Lemma JsMap_get_delete_None k k' m :
  JsMap.get k m = None → JsMap.get k (JsMap.delete k' m) = None.
Proof.
  rewrite !JsMap_get_None_keys. unfold JsMap.keys, JsMap.delete.
  intros Hk Hin. apply Hk.
  apply list_elem_of_fmap in Hin as [e [-> He]].
  apply list_elem_of_filter in He as [_ He].
  apply list_elem_of_fmap. eauto.
Qed.

Lemma JsMap_set_fresh k v m :
  k ∉ JsMap.keys m → JsMap.set k v m = m ++ [(k, v)].
Proof.
  unfold JsMap.keys. induction m as [|[k' v'] m IH]; simpl; [done|].
  rewrite not_elem_of_cons. intros [Hne Hk].
  rewrite decide_False by done. by rewrite IH.
Qed.

Lemma JsMap_delete_absent k m : k ∉ JsMap.keys m → JsMap.delete k m = m.
Proof.
  unfold JsMap.keys, JsMap.delete. induction m as [|[k' v'] m IH]; simpl; [done|].
  rewrite not_elem_of_cons. intros [Hne Hk].
  rewrite filter_cons_True by (simpl; congruence). by rewrite IH.
Qed.

Lemma JsMap_delete_head k v m :
  NoDup (JsMap.keys ((k, v) :: m)) → JsMap.delete k ((k, v) :: m) = m.
Proof.
  unfold JsMap.keys. simpl. rewrite NoDup_cons. intros [Hk _].
  unfold JsMap.delete. rewrite filter_cons_False by (simpl; tauto).
  by apply JsMap_delete_absent.
Qed.

End JsMapFacts.

(** *** The cache *)

Section CacheFacts.
Context {T : Type}.
Implicit Types (c : Cache.t T) (k key : string) (v value : T).

Lemma Cache_get_set_eq key value c :
  Cache.get key (Cache.set key value c) = Some value.
Proof. unfold Cache.get, Cache.set. simpl. apply JsMap_get_set_eq. Qed.

Lemma Cache_get_set_None key k value c :
  key ≠ k → Cache.get k c = None → Cache.get k (Cache.set key value c) = None.
Proof.
  unfold Cache.get, Cache.set. simpl. intros Hne Hk.
  rewrite JsMap_get_set_ne by done.
  destruct (_ >=? _); [|done].
  destruct (JsMap.first_key _); [|done].
  by apply JsMap_get_delete_None.
Qed.

Lemma Cache_run_snoc (ops : list (Cache.op T)) o c :
  Cache.run (ops ++ [o]) c = Cache.apply (Cache.run ops c) o.
Proof. unfold Cache.run. by rewrite foldl_app. Qed.

Lemma Cache_maxSize_run (ops : list (Cache.op T)) c :
  Cache.maxSize (Cache.run ops c) = Cache.maxSize c.
Proof.
  induction ops as [|o ops IH] using rev_ind; [done|].
  rewrite Cache_run_snoc. by destruct o.
Qed.

Lemma Cache_written_snoc (ops : list (Cache.op T)) o :
  Cache.written (ops ++ [o]) =
  Cache.written ops ++ match o with Cache.OpSet k v => [(k, v)] | Cache.OpGet _ => [] end.
Proof. unfold Cache.written. rewrite omap_app. by destruct o. Qed.

(** With pairwise distinct keys and a capacity of at least one, the store
    after any sequence of calls is the tail of what was written: the last
    [N] pairs when more than [N] were written, everything otherwise. *)
Lemma Cache_run_written (ops : list (Cache.op T)) (N : Z) :
  1 ≤ N →
  NoDup (JsMap.keys (Cache.written ops)) →
  Cache.cache (Cache.run ops (Cache.new N)) =
  drop (length (Cache.written ops) - Z.to_nat N) (Cache.written ops).
Proof.
  intros HN. induction ops as [|o ops IH] using rev_ind; [done|].
  rewrite Cache_run_snoc, Cache_written_snoc.
  destruct o as [k|k v]; simpl.
  { rewrite app_nil_r. apply IH. }
  unfold JsMap.keys. rewrite fmap_app, NoDup_app. simpl.
  intros (Hnd & Hfresh & _). specialize (IH Hnd).
  set (w := Cache.written ops) in *.
  assert (Hk : k ∉ JsMap.keys w).
  { intros Hin. apply (Hfresh k Hin). apply list_elem_of_singleton. done. }
  unfold Cache.set. rewrite Cache_maxSize_run. simpl. rewrite IH.
  unfold JsMap.size. rewrite length_drop, length_app. simpl.
  assert (Hsub : ∀ n, k ∉ JsMap.keys (drop n w)).
  { intros n Hin. apply Hk. unfold JsMap.keys in *.
    rewrite <- (take_drop n w), fmap_app. apply elem_of_app. by right. }
  destruct (Z.geb_spec (Z.of_nat (length w - (length w - Z.to_nat N))) N) as [Hfull|Hroom].
  - assert (Hlen : (Z.to_nat N ≤ length w)%nat) by lia.
    destruct (drop (length w - Z.to_nat N) w) as [|[k0 v0] rest] eqn:Hd.
    { apply (f_equal length) in Hd. rewrite length_drop in Hd. simpl in Hd. lia. }
    simpl. rewrite JsMap_delete_head.
    2:{ rewrite <- Hd. unfold JsMap.keys. rewrite fmap_drop.
        eapply sublist_NoDup; [apply Hnd | apply sublist_drop]. }
    assert (Hrest : rest = drop (S (length w - Z.to_nat N)) w).
    { change rest with (drop 1 ((k0, v0) :: rest)).
      rewrite <- Hd, drop_drop. f_equal. lia. }
    rewrite JsMap_set_fresh by (rewrite Hrest; apply Hsub).
    rewrite Hrest, drop_app_le by lia.
    f_equal. f_equal. lia.
  - assert (Hlen : (length w < Z.to_nat N)%nat) by lia.
    replace (length w - Z.to_nat N)%nat with 0%nat by lia.
    replace (length w + 1 - Z.to_nat N)%nat with 0%nat by lia.
    rewrite !drop_0. by apply JsMap_set_fresh.
Qed.

End CacheFacts.

(** *** The request layer: bookkeeping invariant *)

Lemma Net_inv_init : Net_inv Net_init.
Proof. split; simpl; intros *; try rewrite lookup_empty; done. Qed.

(** Starting a request under a key that is neither cached nor registered. *)
Lemma Net_inv_start st p :
  Net_inv st →
  activeRequests st !! producer_key p = None →
  (∀ id, p = FetchPokemon id → Cache.get (toString id) (pokemonCache st) = None) →
  (∀ url name, p = FetchMove url name → Cache.get name (moveCache st) = None) →
  Net_inv {| pokemonCache := pokemonCache st;
             moveCache := moveCache st;
             activeRequests := <[producer_key p := length (requests st)]> (activeRequests st);
             requests := requests st ++ [{| producer := p; status := Pending |}];
             settled := settled st |}.
Proof.
  intros [I1 I2 I3 I4] Hreg Hp Hm.
  assert (Hold : ∀ h r, (requests st ++ [{| producer := p; status := Pending |}]) !! h = Some r →
            requests st !! h = Some r ∨ (h = length (requests st) ∧ r = {| producer := p; status := Pending |})).
  { intros h r Hl. apply lookup_app_Some in Hl as [Hl | [Hge Hl]]; [by left | right].
    apply list_lookup_singleton_Some in Hl as [Hz <-]. split; [lia | done]. }
  split; simpl.
  - intros h q Hl. apply Hold in Hl as [Hl | [-> Heq]].
    + rewrite lookup_insert_ne; [by apply I1|].
      intros Hk. apply I1 in Hl. congruence.
    + injection Heq as <-. by rewrite lookup_insert_eq.
  - intros k h Hl. rewrite lookup_insert in Hl. case_decide as Hk.
    + injection Hl as <-. subst k. exists p. split; [|done]. simpl.
      rewrite lookup_app_r by lia. by rewrite Nat.sub_diag.
    + destruct (I2 _ _ Hl) as (q & Hq & Hkq). exists q. split; [|done]. simpl.
      by apply lookup_app_l_Some.
  - intros h id Hl. apply Hold in Hl as [Hl | [-> Heq]]; [by eapply I3|].
    injection Heq as <-. by eapply Hp.
  - intros h url name Hl. apply Hold in Hl as [Hl | [-> Heq]]; [by eapply I4|].
    injection Heq as <-. by eapply Hm.
Qed.

Lemma getPokemon_inv id st : Net_inv st → Net_inv (getPokemon id st).1.
Proof.
  intros Hinv. unfold getPokemon.
  destruct (Cache.get _ _) eqn:Hc; [done|].
  destruct (activeRequests st !! _) eqn:Hr; [done|].
  simpl. apply (Net_inv_start st (FetchPokemon id)); try done.
  intros id' [= <-]. done.
Qed.

Lemma getMove_inv url name st : Net_inv st → Net_inv (getMove url name st).1.
Proof.
  intros Hinv. unfold getMove.
  destruct (Cache.get _ _) eqn:Hc; [done|].
  destruct (activeRequests st !! _) eqn:Hr; [done|].
  simpl. apply (Net_inv_start st (FetchMove url name)); try done.
  intros url' name' [= <- <-]. done.
Qed.

(** Settling the pending request [h]: its entry leaves the registry, and the
    caches change at most under its own key. *)
Lemma Net_inv_finish st h p s pc mc n :
  Net_inv st →
  requests st !! h = Some {| producer := p; status := Pending |} →
  s ≠ Pending →
  (∀ k, k ≠ producer_key p → Cache.get k (pokemonCache st) = None → Cache.get k pc = None) →
  (∀ k, k ≠ producer_key p → Cache.get k (moveCache st) = None → Cache.get k mc = None) →
  Net_inv {| pokemonCache := pc;
             moveCache := mc;
             activeRequests := delete (producer_key p) (activeRequests st);
             requests := <[h := {| producer := p; status := s |}]> (requests st);
             settled := n |}.
Proof.
  intros [I1 I2 I3 I4] Hh Hs Hpc Hmc.
  assert (Hlt : (h < length (requests st))%nat) by (by eapply lookup_lt_Some).
  assert (Hold : ∀ h' q, <[h := {| producer := p; status := s |}]> (requests st) !! h'
                         = Some {| producer := q; status := Pending |} →
            h' ≠ h ∧ requests st !! h' = Some {| producer := q; status := Pending |}
            ∧ producer_key q ≠ producer_key p).
  { intros h' q Hl. destruct (decide (h' = h)) as [->|Hne].
    - rewrite list_lookup_insert_eq in Hl by done. congruence.
    - rewrite list_lookup_insert_ne in Hl by done. split_and!; [done..|].
      intros Hk. apply I1 in Hl. apply I1 in Hh. congruence. }
  split; simpl.
  - intros h' q Hl. apply Hold in Hl as (_ & Hl & Hk).
    rewrite lookup_delete_ne by done. by apply I1.
  - intros k h' Hl. rewrite lookup_delete in Hl. case_decide as Hk; [done|].
    destruct (I2 _ _ Hl) as (q & Hq & Hkq). exists q. split; [|done]. simpl.
    rewrite list_lookup_insert_ne; [done|].
    intros ->. rewrite Hh in Hq. congruence.
  - intros h' id Hl. apply Hold in Hl as (_ & Hl & Hk).
    apply Hpc; [done|]. by eapply I3.
  - intros h' url name Hl. apply Hold in Hl as (_ & Hl & Hk).
    apply Hmc; [done|]. by eapply I4.
Qed.

Lemma settle_inv h o st st' : Net_inv st → settle h o st = Some st' → Net_inv st'.
Proof.
  intros Hinv. unfold settle.
  destruct (requests st !! h) as [[p []]|] eqn:Hh; try done.
  destruct o as [[data|power]|error], p as [id|url name]; intros [= <-].
  - apply (Net_inv_finish st h (FetchPokemon id)); try done.
    intros k Hk. by apply Cache_get_set_None.
  - apply (Net_inv_finish st h (FetchMove url name)); try done.
    intros k Hk. by apply Cache_get_set_None.
  - by apply (Net_inv_finish st h (FetchPokemon id)).
  - by apply (Net_inv_finish st h (FetchMove url name)).
Qed.

Lemma net_step_inv e st st' : Net_inv st → net_step e st = Some st' → Net_inv st'.
Proof.
  intros Hinv. destruct e as [id|url name|h o]; simpl.
  - intros [= <-]. by apply getPokemon_inv.
  - intros [= <-]. by apply getMove_inv.
  - by apply settle_inv.
Qed.

Lemma net_run_inv es st st' : Net_inv st → net_run es st = Some st' → Net_inv st'.
Proof.
  revert st. induction es as [|e es IH]; simpl; intros st Hinv.
  - by intros [= <-].
  - destruct (net_step e st) as [st1|] eqn:He; [|done].
    apply IH. by eapply net_step_inv.
Qed.

Lemma Net_reachable_inv st : Net_reachable st → Net_inv st.
Proof. intros [es Hes]. eapply net_run_inv; [apply Net_inv_init | done]. Qed.

(** *** Claims about the cache *)

(** C3, as stated, fails: three [set] calls under one key on a cache of
    capacity 2 leave one entry, not two (a map holds a key once); and on a
    cache of capacity 0 one [set] call leaves one entry, not none. *)
Lemma Cache_more_sets_than_capacity_counterexample :
  (let ops := [Cache.OpSet "a" 1; Cache.OpSet "a" 2; Cache.OpSet "a" 3] in
   2 < Z.of_nat (length (Cache.written ops)) ∧
   Cache.cache (Cache.run ops (Cache.new 2)) = [("a", 3)] ∧
   JsMap.size (Cache.cache (Cache.run ops (Cache.new 2))) ≠ 2) ∧
  (let ops := [Cache.OpSet "a" 1] in
   0 < Z.of_nat (length (Cache.written ops)) ∧
   Cache.cache (Cache.run ops (Cache.new 0)) = [("a", 1)] ∧
   JsMap.size (Cache.cache (Cache.run ops (Cache.new 0))) ≠ 0).
Proof. repeat split; try reflexivity; discriminate. Qed.

(** C3 (amended): on a new cache of capacity [N >= 1], after any sequence of
    [get] and [set] calls in which more than [N] [set] calls were made, all
    under pairwise distinct keys, the store holds exactly [N] entries: the
    [N] most recently written pairs in insertion order, the evicted ones
    being exactly the oldest.  The [get] calls of the sequence play no part. *)
Theorem Cache_fifo_eviction {T : Type} (ops : list (Cache.op T)) (N : Z) :
  1 ≤ N →
  NoDup (JsMap.keys (Cache.written ops)) →
  N < Z.of_nat (length (Cache.written ops)) →
  let c := Cache.run ops (Cache.new N) in
  let evicted := take (length (Cache.written ops) - Z.to_nat N) (Cache.written ops) in
  JsMap.size (Cache.cache c) = N ∧
  Cache.written ops = evicted ++ Cache.cache c ∧
  (∀ k, k ∈ JsMap.keys evicted → Cache.get k c = None).
Proof.
  intros HN Hnd Hlen c evicted. subst c evicted.
  rewrite (Cache_run_written ops N HN Hnd).
  split_and!.
  - unfold JsMap.size. rewrite length_drop. lia.
  - by rewrite take_drop.
  - intros k Hk. unfold Cache.get. rewrite (Cache_run_written ops N HN Hnd).
    apply JsMap_get_None_keys. intros Hin.
    rewrite <- (take_drop (length (Cache.written ops) - Z.to_nat N) (Cache.written ops)) in Hnd.
    unfold JsMap.keys in *. rewrite fmap_app in Hnd.
    apply NoDup_app in Hnd as (_ & Hdisj & _). by apply (Hdisj k).
Qed.

Lemma Cache_fifo_eviction_witness :
  let ops := [Cache.OpSet "a" 1; Cache.OpGet "a"; Cache.OpSet "b" 2; Cache.OpSet "c" 3] in
  JsMap.size (Cache.cache (Cache.run ops (Cache.new 2))) = 2 ∧
  Cache.written ops = [("a", 1)] ++ Cache.cache (Cache.run ops (Cache.new 2)) ∧
  (∀ k, k ∈ JsMap.keys [("a", 1)] → Cache.get k (Cache.run ops (Cache.new 2)) = None).
Proof.
  apply (Cache_fifo_eviction
           [Cache.OpSet "a" 1; Cache.OpGet "a"; Cache.OpSet "b" 2; Cache.OpSet "c" 3] 2).
  - lia.
  - apply (bool_decide_unpack (NoDup _)). vm_compute. exact I.
  - simpl. lia.
Defined.

(** Below capacity [set] removes nothing. *)
Lemma Cache_set_below_capacity {T : Type} key (value : T) c :
  JsMap.size (Cache.cache c) < Cache.maxSize c →
  Cache.cache (Cache.set key value c) = JsMap.set key value (Cache.cache c).
Proof.
  intros Hlt. unfold Cache.set. simpl.
  destruct (Z.geb_spec (JsMap.size (Cache.cache c)) (Cache.maxSize c)); [lia | done].
Qed.

(** C4: the code at the failing input.  The cache of capacity 2 holds "a" and
    "b"; writing "b" again deletes "a" and leaves a single entry. *)
Theorem Cache_set_existing_key_evicts :
  let c := Cache.run [Cache.OpSet "a" 1; Cache.OpSet "b" 2] (Cache.new 2) in
  Cache.get "a" c = Some 1 ∧
  Cache.get "b" c = Some 2 ∧
  Cache.cache (Cache.set "b" 3 c) = [("b", 3)] ∧
  Cache.get "a" (Cache.set "b" 3 c) = None.
Proof. repeat split; reflexivity. Qed.

(** *** The request layer: requests over time *)

Lemma evolves_refl r : evolves r r.
Proof. split; [done | by right]. Qed.

Lemma evolves_trans r1 r2 r3 : evolves r1 r2 → evolves r2 r3 → evolves r1 r3.
Proof.
  intros [Hp1 Hs1] [Hp2 Hs2]. split; [congruence|].
  destruct Hs1 as [?| ->]; [by left | done].
Qed.

Lemma evolves_pending r p :
  evolves r {| producer := p; status := Pending |} → r = {| producer := p; status := Pending |}.
Proof.
  intros [Hp [Hs| <-]]; [|done]. destruct r as [q s]. simpl in *. by subst.
Qed.

Lemma resolve_requests p st :
  (resolve p st).1 = st ∨
  (activeRequests st !! producer_key p = None ∧
   requests (resolve p st).1 = requests st ++ [{| producer := p; status := Pending |}]).
Proof.
  destruct p as [id|url name]; simpl; [unfold getPokemon | unfold getMove];
    destruct (Cache.get _ _); [by left | | by left |];
    (destruct (activeRequests st !! _) eqn:Hr; [by left | by right]).
Qed.

Lemma settle_requests h o st st' :
  settle h o st = Some st' →
  ∃ p s, requests st !! h = Some {| producer := p; status := Pending |} ∧ s ≠ Pending ∧
         requests st' = <[h := {| producer := p; status := s |}]> (requests st).
Proof.
  unfold settle. destruct (requests st !! h) as [[p []]|] eqn:Hh; try done.
  destruct o as [[data|power]|error], p as [id|url name]; intros [= <-];
    eexists _, _; (split_and!; [done | | done]); done.
Qed.

Lemma net_step_resolve_or_settle e st st' :
  net_step e st = Some st' →
  (∃ p, st' = (resolve p st).1) ∨ (∃ h o, settle h o st = Some st').
Proof.
  destruct e as [id|url name|h o]; simpl.
  - intros [= <-]. left. by exists (FetchPokemon id).
  - intros [= <-]. left. by exists (FetchMove url name).
  - intros Hs. right. eauto.
Qed.

(** One step keeps every request there is, up to [evolves]. *)
Lemma net_step_evolves e st st' h r :
  net_step e st = Some st' → requests st !! h = Some r →
  ∃ r', requests st' !! h = Some r' ∧ evolves r r'.
Proof.
  intros Hstep Hr. apply net_step_resolve_or_settle in Hstep as [[p ->]|(h0 & o & Hs)].
  - destruct (resolve_requests p st) as [-> | [_ ->]].
    + exists r. split; [done | apply evolves_refl].
    + exists r. split; [by apply lookup_app_l_Some | apply evolves_refl].
  - apply settle_requests in Hs as (p & s & Hh0 & Hs & ->).
    destruct (decide (h = h0)) as [->|Hne].
    + exists {| producer := p; status := s |}. split.
      * apply list_lookup_insert_eq. by eapply lookup_lt_Some.
      * rewrite Hh0 in Hr. injection Hr as <-. split; [done | by left].
    + exists r. split; [by rewrite list_lookup_insert_ne | apply evolves_refl].
Qed.

Lemma net_run_evolves es st st' h r :
  net_run es st = Some st' → requests st !! h = Some r →
  ∃ r', requests st' !! h = Some r' ∧ evolves r r'.
Proof.
  revert st r. induction es as [|e es IH]; simpl; intros st r.
  - intros [= <-] Hr. exists r. split; [done | apply evolves_refl].
  - destruct (net_step e st) as [st1|] eqn:He; [|done]. intros Hrun Hr.
    destruct (net_step_evolves _ _ _ _ _ He Hr) as (r1 & Hr1 & Hev1).
    destruct (IH _ _ Hrun Hr1) as (r2 & Hr2 & Hev2).
    exists r2. split; [done | by eapply evolves_trans].
Qed.

(** A request that a step creates is created under a key that was not in
    the registry. *)
Lemma net_step_started e st st' h r :
  net_step e st = Some st' →
  (length (requests st) ≤ h)%nat → requests st' !! h = Some r →
  activeRequests st !! producer_key (producer r) = None.
Proof.
  intros Hstep Hge Hr. apply net_step_resolve_or_settle in Hstep as [[p ->]|(h0 & o & Hs)].
  - destruct (resolve_requests p st) as [Heq | [Hnone Heq]]; rewrite Heq in Hr.
    + apply lookup_lt_Some in Hr. lia.
    + apply lookup_app_Some in Hr as [Hr | [_ Hr]].
      * apply lookup_lt_Some in Hr. lia.
      * apply list_lookup_singleton_Some in Hr as [_ <-]. done.
  - apply settle_requests in Hs as (p & s & Hh0 & Hs & Heq). rewrite Heq in Hr.
    apply lookup_lt_Some in Hr. rewrite length_insert in Hr. lia.
Qed.

Lemma pending_backwards es st st' h k :
  net_run es st = Some st' → (h < length (requests st))%nat →
  pending h k st' → pending h k st.
Proof.
  intros Hrun Hlt (p & Hp & Hk).
  destruct (lookup_lt_is_Some_2 _ _ Hlt) as [r Hr].
  destruct (net_run_evolves _ _ _ _ _ Hrun Hr) as (r' & Hr' & Hev).
  rewrite Hp in Hr'. injection Hr' as <-. apply evolves_pending in Hev as ->.
  by exists p.
Qed.

(** While the request [h] for key [k] is pending, no request started later
    is for [k]. *)
Lemma no_second_producer es st st' h k :
  Net_inv st → net_run es st = Some st' →
  (h < length (requests st))%nat → pending h k st' →
  ∀ h' r, (length (requests st) ≤ h')%nat → requests st' !! h' = Some r →
          producer_key (producer r) ≠ k.
Proof.
  revert st. induction es as [|e es IH]; simpl; intros st Hinv.
  - intros [= <-] _ _ h' r Hge Hr. apply lookup_lt_Some in Hr. lia.
  - destruct (net_step e st) as [st1|] eqn:He; [|done].
    intros Hrun Hlt Hpend h' r Hge Hr.
    assert (Hinv1 : Net_inv st1) by (by eapply net_step_inv).
    assert (Hmono : (length (requests st) ≤ length (requests st1))%nat).
    { destruct (decide (length (requests st) = 0%nat)) as [->|Hz]; [lia|].
      destruct (lookup_lt_is_Some_2 (requests st) (length (requests st) - 1)) as [r0 Hr0]; [lia|].
      destruct (net_step_evolves _ _ _ _ _ He Hr0) as (r1 & Hr1 & _).
      apply lookup_lt_Some in Hr1. lia. }
    destruct (decide (length (requests st1) ≤ h')%nat) as [Hnew|Hold].
    + eapply (IH st1); eauto. lia.
    + assert (Hpend1 : pending h k st1).
      { eapply pending_backwards; [done | lia | done]. }
      assert (Hpend0 : pending h k st).
      { eapply (pending_backwards [e]); [simpl; by rewrite He | done | done]. }
      destruct Hpend0 as (p & Hp & Hk).
      apply (inv_registered _ Hinv) in Hp. rewrite Hk in Hp.
      destruct (lookup_lt_is_Some_2 (requests st1) h') as [r1 Hr1]; [lia|].
      destruct (net_run_evolves _ _ _ _ _ Hrun Hr1) as (r' & Hr' & [Hprod _]).
      rewrite Hr in Hr'. injection Hr' as <-.
      pose proof (net_step_started _ _ _ _ _ He Hge Hr1) as Hnone.
      rewrite <- Hprod in Hnone. congruence.
Qed.

(** *** Claims about the request layer *)

Lemma getPokemon_in_flight st h id :
  Net_inv st →
  requests st !! h = Some {| producer := FetchPokemon id; status := Pending |} →
  getPokemon id st = (st, RequestPromise h).
Proof.
  intros Hinv Hh. unfold getPokemon.
  rewrite (inv_pokemon_miss _ Hinv _ _ Hh).
  pose proof (inv_registered _ Hinv _ _ Hh) as Hreg. simpl in Hreg.
  by rewrite Hreg.
Qed.

Lemma getMove_in_flight st h url url' name :
  Net_inv st →
  requests st !! h = Some {| producer := FetchMove url name; status := Pending |} →
  getMove url' name st = (st, RequestPromise h).
Proof.
  intros Hinv Hh. unfold getMove.
  rewrite (inv_move_miss _ Hinv _ _ _ Hh).
  pose proof (inv_registered _ Hinv _ _ Hh) as Hreg. simpl in Hreg.
  by rewrite Hreg.
Qed.

Lemma in_flight_unique st h h' k :
  Net_inv st → pending h k st → pending h' k st → h' = h.
Proof.
  intros Hinv (p & Hp & Hk) (p' & Hp' & Hk').
  apply (inv_registered _ Hinv) in Hp, Hp'. congruence.
Qed.

Lemma status_of_lookup h st r :
  requests st !! h = Some r → status_of h st = status r.
Proof. unfold status_of. by intros ->. Qed.

(** A settlement is final. *)
Lemma settlement_final es st st' h :
  net_run es st = Some st' → status_of h st ≠ Pending →
  status_of h st' = status_of h st.
Proof.
  intros Hrun Hs. unfold status_of in Hs.
  destruct (requests st !! h) as [r|] eqn:Hr; [|done].
  destruct (net_run_evolves _ _ _ _ _ Hrun Hr) as (r' & Hr' & [_ [Hp| ->]]); [done|].
  by rewrite (status_of_lookup _ _ _ Hr), (status_of_lookup _ _ _ Hr').
Qed.

(** A call that misses the cache and the registry starts one request: it
    is appended to the record, pending, registered under the key, and the
    call returns it. *)
Lemma resolve_miss p st :
  cached p st = None →
  activeRequests st !! producer_key p = None →
  resolve p st
  = ({| pokemonCache := pokemonCache st;
        moveCache := moveCache st;
        activeRequests := <[producer_key p := length (requests st)]> (activeRequests st);
        requests := requests st ++ [{| producer := p; status := Pending |}];
        settled := settled st |},
     RequestPromise (length (requests st))).
Proof.
  destruct p as [id|url name]; simpl; [unfold getPokemon | unfold getMove];
    (destruct (Cache.get _ _); [done|]); intros _ ->; done.
Qed.

(** The request that such a call started is there, for the same producer,
    as long as it has not settled. *)
Lemma started_request_stays p st0 es st :
  cached p st0 = None →
  activeRequests st0 !! producer_key p = None →
  net_run es (resolve p st0).1 = Some st →
  status_of (length (requests st0)) st = Pending →
  requests st !! length (requests st0) = Some {| producer := p; status := Pending |}.
Proof.
  intros Hc Hr Hrun Hstat. rewrite (resolve_miss p st0 Hc Hr) in Hrun. simpl in Hrun.
  assert (Hfirst : requests
            {| pokemonCache := pokemonCache st0; moveCache := moveCache st0;
               activeRequests := <[producer_key p := length (requests st0)]> (activeRequests st0);
               requests := requests st0 ++ [{| producer := p; status := Pending |}];
               settled := settled st0 |} !! length (requests st0)
            = Some {| producer := p; status := Pending |}).
  { simpl. rewrite lookup_app_r by lia. by rewrite Nat.sub_diag. }
  destruct (net_run_evolves _ _ _ _ _ Hrun Hfirst) as ([q s] & Hh & [Hq _]).
  simpl in Hq. subst q.
  rewrite (status_of_lookup _ _ _ Hh) in Hstat. simpl in Hstat. by subst s.
Qed.

(** C1: in-flight deduplication.  A first call that finds its key neither in
    its cache nor in the registry starts the producer: exactly one request
    [h] is added, pending, registered under the key, and returned.  Whatever
    calls and settlements follow, as long as [h] has not settled: a second
    call for the key changes nothing in the state (so it starts no request)
    and returns the very promise [h] the first call returned; of all
    requests started from the first call on, [h] is the only one for the
    key; [h] is the only pending request for the key and the registry holds
    it under the key; and once [h] has settled its settlement never changes,
    so every holder of [h] observes the same one. *)
Theorem in_flight_deduplication (st0 : Net) (p : Producer) (es : list NetEvent) (st : Net) :
  Net_reachable st0 →
  cached p st0 = None →
  activeRequests st0 !! producer_key p = None →
  net_run es (resolve p st0).1 = Some st →
  status_of (length (requests st0)) st = Pending →
  let h := length (requests st0) in
  requests (resolve p st0).1 = requests st0 ++ [{| producer := p; status := Pending |}] ∧
  activeRequests (resolve p st0).1 !! producer_key p = Some h ∧
  (resolve p st0).2 = RequestPromise h ∧
  match p with
  | FetchPokemon id => getPokemon id st = (st, RequestPromise h)
  | FetchMove _ name => ∀ url, getMove url name st = (st, RequestPromise h)
  end ∧
  (∀ h' r, (h ≤ h')%nat → requests st !! h' = Some r →
           producer_key (producer r) = producer_key p → h' = h) ∧
  (∀ h', pending h' (producer_key p) st → h' = h) ∧
  activeRequests st !! producer_key p = Some h ∧
  (∀ es' st', net_run es' st = Some st' → status_of h st' ≠ Pending →
     ∀ es'' st'', net_run es'' st' = Some st'' → status_of h st'' = status_of h st').
Proof.
  intros Hreach Hmiss Hreg Hrun Hstat h.
  assert (Hinv0 : Net_inv st0) by (by apply Net_reachable_inv).
  pose proof (resolve_miss p st0 Hmiss Hreg) as Hcall.
  pose proof (started_request_stays p st0 es st Hmiss Hreg Hrun Hstat) as Hh.
  assert (Hinv1 : Net_inv (resolve p st0).1).
  { destruct p; simpl; [by apply getPokemon_inv | by apply getMove_inv]. }
  assert (Hinv : Net_inv st) by (by eapply net_run_inv).
  assert (Hpend : pending h (producer_key p) st) by (by exists p).
  split_and!.
  - by rewrite Hcall.
  - rewrite Hcall. simpl. apply lookup_insert_eq.
  - by rewrite Hcall.
  - destruct p as [id|url name]; [by apply getPokemon_in_flight|].
    intros url'. by eapply getMove_in_flight.
  - intros h' r Hge Hr Hk. destruct (decide (h' = h)) as [|Hne]; [done|]. exfalso.
    assert (Hlen : length (requests (resolve p st0).1) = S h).
    { rewrite Hcall. simpl. rewrite length_app. simpl. unfold h. lia. }
    apply (no_second_producer es (resolve p st0).1 st h (producer_key p)
             Hinv1 Hrun ltac:(lia) Hpend h' r ltac:(lia) Hr Hk).
  - intros h' Hh'. by eapply in_flight_unique.
  - by apply (inv_registered _ Hinv _ _ Hh).
  - intros es' st' _ Hs es'' st'' Hrun''. by eapply settlement_final.
Qed.

Lemma in_flight_deduplication_witness :
  (let st := (getPokemon 7 (getPokemon 25 Net_init).1).1 in
   requests (getPokemon 25 Net_init).1
     = [{| producer := FetchPokemon 25; status := Pending |}] ∧
   activeRequests (getPokemon 25 Net_init).1 !! "25" = Some 0%nat ∧
   (getPokemon 25 Net_init).2 = RequestPromise 0 ∧
   getPokemon 25 st = (st, RequestPromise 0%nat) ∧
   (∀ h' r, (0 ≤ h')%nat → requests st !! h' = Some r →
            producer_key (producer r) = "25" → h' = 0%nat) ∧
   (∀ h', pending h' "25" st → h' = 0%nat) ∧
   activeRequests st !! "25" = Some 0%nat ∧
   (∀ es' st', net_run es' st = Some st' → status_of 0 st' ≠ Pending →
      ∀ es'' st'', net_run es'' st' = Some st'' → status_of 0 st'' = status_of 0 st')) ∧
  (let url := "https://pokeapi.co/api/v2/move/84/" in
   let st := (getPokemon 7 (getMove url "thunder-shock" Net_init).1).1 in
   requests (getMove url "thunder-shock" Net_init).1
     = [{| producer := FetchMove url "thunder-shock"; status := Pending |}] ∧
   activeRequests (getMove url "thunder-shock" Net_init).1 !! "thunder-shock" = Some 0%nat ∧
   (getMove url "thunder-shock" Net_init).2 = RequestPromise 0 ∧
   (∀ url', getMove url' "thunder-shock" st = (st, RequestPromise 0%nat)) ∧
   (∀ h' r, (0 ≤ h')%nat → requests st !! h' = Some r →
            producer_key (producer r) = "thunder-shock" → h' = 0%nat) ∧
   (∀ h', pending h' "thunder-shock" st → h' = 0%nat) ∧
   activeRequests st !! "thunder-shock" = Some 0%nat ∧
   (∀ es' st', net_run es' st = Some st' → status_of 0 st' ≠ Pending →
      ∀ es'' st'', net_run es'' st' = Some st'' → status_of 0 st'' = status_of 0 st')).
Proof.
  split.
  - apply (in_flight_deduplication Net_init (FetchPokemon 25) [CallGetPokemon 7]
             (getPokemon 7 (getPokemon 25 Net_init).1).1).
    + exists []. reflexivity.
    + reflexivity.
    + reflexivity.
    + reflexivity.
    + reflexivity.
  - apply (in_flight_deduplication Net_init
             (FetchMove "https://pokeapi.co/api/v2/move/84/" "thunder-shock")
             [CallGetPokemon 7]
             (getPokemon 7 (getMove "https://pokeapi.co/api/v2/move/84/" "thunder-shock"
                              Net_init).1).1).
    + exists []. reflexivity.
    + reflexivity.
    + reflexivity.
    + reflexivity.
    + reflexivity.
Defined.

Lemma settle_failure st h p error :
  requests st !! h = Some {| producer := p; status := Pending |} →
  settle h (Failure error) st = Some (catch_request h p error st).
Proof. unfold settle. intros ->. by destruct p. Qed.

(** What the failure of a pending request does, in any reachable state. *)
Lemma pending_request_failure (st : Net) (h : nat) (p : Producer) (error : Thrown) :
  Net_reachable st →
  requests st !! h = Some {| producer := p; status := Pending |} →
  ∃ st', settle h (Failure error) st = Some st' ∧
    status_of h st' = Rejected error (settled st) ∧
    activeRequests st' !! producer_key p = None ∧
    pokemonCache st' = pokemonCache st ∧
    moveCache st' = moveCache st ∧
    (resolve p st').2 = RequestPromise (length (requests st')) ∧
    requests (resolve p st').1 = requests st' ++ [{| producer := p; status := Pending |}].
Proof.
  intros Hreach Hh. apply Net_reachable_inv in Hreach as Hinv.
  exists (catch_request h p error st).
  assert (Hlt : (h < length (requests st))%nat) by (by eapply lookup_lt_Some).
  split_and!.
  - by apply settle_failure.
  - unfold status_of, catch_request. simpl. by rewrite list_lookup_insert_eq.
  - simpl. apply lookup_delete_eq.
  - done.
  - done.
  - destruct p as [id|url name]; simpl; [unfold getPokemon | unfold getMove]; simpl.
    + rewrite (inv_pokemon_miss _ Hinv _ _ Hh). by rewrite lookup_delete_eq.
    + rewrite (inv_move_miss _ Hinv _ _ _ Hh). by rewrite lookup_delete_eq.
  - destruct p as [id|url name]; simpl; [unfold getPokemon | unfold getMove]; simpl.
    + rewrite (inv_pokemon_miss _ Hinv _ _ Hh). by rewrite lookup_delete_eq.
    + rewrite (inv_move_miss _ Hinv _ _ _ Hh). by rewrite lookup_delete_eq.
Qed.

Lemma net_run_reachable es st st' :
  Net_reachable st → net_run es st = Some st' → Net_reachable st'.
Proof.
  intros [es0 Hes0] Hrun. exists (es0 ++ es).
  revert Hes0. generalize Net_init. induction es0 as [|e es0 IH]; simpl; intros s.
  - by intros [= ->].
  - destruct (net_step e s) as [s'|]; [apply IH | done].
Qed.

(** C5: a failed producer.  A call of [getPokemon] or [getMove] that finds
    its key neither in its cache nor in the registry starts the request [h];
    whatever calls and settlements follow, as long as [h] has not settled it
    is the pending request of that producer, and when it then fails with
    [error]: the promise [h] that every waiter holds is rejected with that
    very [error], the registry has no entry for the key any more, both
    caches are what they were, and the next call for the key starts a new
    request. *)
Theorem failed_request_not_cached
    (st0 : Net) (p : Producer) (es : list NetEvent) (st : Net) (error : Thrown) :
  Net_reachable st0 →
  cached p st0 = None →
  activeRequests st0 !! producer_key p = None →
  net_run es (resolve p st0).1 = Some st →
  status_of (length (requests st0)) st = Pending →
  let h := length (requests st0) in
  (resolve p st0).2 = RequestPromise h ∧
  requests st !! h = Some {| producer := p; status := Pending |} ∧
  ∃ st', settle h (Failure error) st = Some st' ∧
    status_of h st' = Rejected error (settled st) ∧
    activeRequests st' !! producer_key p = None ∧
    pokemonCache st' = pokemonCache st ∧
    moveCache st' = moveCache st ∧
    (resolve p st').2 = RequestPromise (length (requests st')) ∧
    requests (resolve p st').1 = requests st' ++ [{| producer := p; status := Pending |}].
Proof.
  intros Hreach Hmiss Hreg Hrun Hstat h.
  pose proof (started_request_stays p st0 es st Hmiss Hreg Hrun Hstat) as Hh.
  split_and!.
  - by rewrite (resolve_miss p st0 Hmiss Hreg).
  - done.
  - apply pending_request_failure; [|done].
    eapply net_run_reachable; [|exact Hrun].
    eapply (net_run_reachable (match p with
                               | FetchPokemon id => [CallGetPokemon id]
                               | FetchMove url name => [CallGetMove url name]
                               end)); [exact Hreach|].
    by destruct p.
Qed.

Lemma failed_request_not_cached_witness :
  ((getPokemon 25 Net_init).2 = RequestPromise 0 ∧
   requests (getPokemon 25 Net_init).1 !! 0%nat
     = Some {| producer := FetchPokemon 25; status := Pending |} ∧
   ∃ st', settle 0 (Failure (ErrorObject "timeout of 10000ms exceeded"))
            (getPokemon 25 Net_init).1 = Some st' ∧
     status_of 0 st' = Rejected (ErrorObject "timeout of 10000ms exceeded") 0 ∧
     activeRequests st' !! toString 25 = None ∧
     pokemonCache st' = pokemonCache (getPokemon 25 Net_init).1 ∧
     moveCache st' = moveCache (getPokemon 25 Net_init).1 ∧
     (getPokemon 25 st').2 = RequestPromise (length (requests st')) ∧
     requests (getPokemon 25 st').1
       = requests st' ++ [{| producer := FetchPokemon 25; status := Pending |}]) ∧
  (let url := "https://pokeapi.co/api/v2/move/84/" in
   let st := (getPokemon 7 (getMove url "thunder-shock" Net_init).1).1 in
   (getMove url "thunder-shock" Net_init).2 = RequestPromise 0 ∧
   requests st !! 0%nat
     = Some {| producer := FetchMove url "thunder-shock"; status := Pending |} ∧
   ∃ st', settle 0 (Failure NotAnError) st = Some st' ∧
     status_of 0 st' = Rejected NotAnError 0 ∧
     activeRequests st' !! "thunder-shock" = None ∧
     pokemonCache st' = pokemonCache st ∧
     moveCache st' = moveCache st ∧
     (getMove url "thunder-shock" st').2 = RequestPromise (length (requests st')) ∧
     requests (getMove url "thunder-shock" st').1
       = requests st' ++ [{| producer := FetchMove url "thunder-shock"; status := Pending |}]).
Proof.
  split.
  - apply (failed_request_not_cached Net_init (FetchPokemon 25) []
             (getPokemon 25 Net_init).1 (ErrorObject "timeout of 10000ms exceeded")).
    + exists []. reflexivity.
    + reflexivity.
    + reflexivity.
    + reflexivity.
    + reflexivity.
  - apply (failed_request_not_cached Net_init
             (FetchMove "https://pokeapi.co/api/v2/move/84/" "thunder-shock")
             [CallGetPokemon 7]
             (getPokemon 7 (getMove "https://pokeapi.co/api/v2/move/84/" "thunder-shock"
                              Net_init).1).1 NotAnError).
    + exists []. reflexivity.
    + reflexivity.
    + reflexivity.
    + reflexivity.
    + reflexivity.
Defined.

(** C6: a cache hit.  When the key is in the cache, [getPokemon] (key: the
    decimal string of the id) and [getMove] (key: the name of the move)
    return the cached value and leave the whole state as it was: no request
    is added to [requests] and no entry to [activeRequests]. *)
Theorem cache_hit_starts_no_request (st : Net) :
  (∀ id cached, Cache.get (toString id) (pokemonCache st) = Some cached →
     getPokemon id st = (st, Resolved (VPokemon cached))) ∧
  (∀ url name cached, Cache.get name (moveCache st) = Some cached →
     getMove url name st = (st, Resolved (VMove cached))).
Proof.
  split.
  - intros id cached Hc. unfold getPokemon. by rewrite Hc.
  - intros url name cached Hc. unfold getMove. by rewrite Hc.
Qed.

Lemma cache_hit_starts_no_request_witness :
  ∃ st, net_run [CallGetPokemon 25; Settle 0 (Success (PokemonData pikachu));
                 CallGetMove "https://pokeapi.co/api/v2/move/84/" "thunder-shock";
                 Settle 1 (Success (MoveData (Some 40)))] Net_init = Some st ∧
    getPokemon 25 st = (st, Resolved (VPokemon pikachu)) ∧
    getMove "https://pokeapi.co/api/v2/move/84/" "thunder-shock" st
      = (st, Resolved (VMove {| Move.name := "thunder-shock"; Move.power := Some 40 |})).
Proof.
  eexists. split; [reflexivity|].
  split.
  - apply (proj1 (cache_hit_starts_no_request _) 25 pikachu). reflexivity.
  - apply (proj2 (cache_hit_starts_no_request _)
             "https://pokeapi.co/api/v2/move/84/" "thunder-shock"). reflexivity.
Defined.

(** C9, as stated, fails: the move "25" is in [moveCache] while the request
    of [getPokemon(25)] is pending; [getMove] for the name "25" then returns
    the cached move, not the pending promise of the pokemon. *)
Lemma shared_registry_counterexample :
  ∃ st, net_run [CallGetMove "https://pokeapi.co/api/v2/move/25/" "25";
                 Settle 0 (Success (MoveData (Some 40)));
                 CallGetPokemon 25] Net_init = Some st ∧
    requests st !! 1%nat = Some {| producer := FetchPokemon 25; status := Pending |} ∧
    activeRequests st !! toString 25 = Some 1%nat ∧
    getMove "https://pokeapi.co/api/v2/move/25/" (toString 25) st
      = (st, Resolved (VMove {| Move.name := "25"; Move.power := Some 40 |})) ∧
    (getMove "https://pokeapi.co/api/v2/move/25/" (toString 25) st).2 ≠ RequestPromise 1.
Proof. eexists. split; [reflexivity|]. repeat split; try reflexivity. discriminate. Qed.

(** C9 (amended): one registry for both fetchers.  While the request [h] of
    [getPokemon(id)] is pending, [getMove] for the name [id.toString()],
    when [moveCache] has no entry under that name, returns the promise [h]
    and starts nothing; when [h] is fulfilled the caller of [getMove] holds
    a pokemon.  Conversely, while the request [h] of [getMove(url, name)] is
    pending and [name] is [id.toString()], [getPokemon(id)], when
    [pokemonCache] has no entry under that key, returns [h] and starts
    nothing; when [h] is fulfilled the caller of [getPokemon] holds a move. *)
Theorem shared_registry_crosstalk (st : Net) (h : nat) :
  Net_reachable st →
  (∀ id url,
     requests st !! h = Some {| producer := FetchPokemon id; status := Pending |} →
     Cache.get (toString id) (moveCache st) = None →
     getMove url (toString id) st = (st, RequestPromise h) ∧
     ∀ data, ∃ st', settle h (Success (PokemonData data)) st = Some st' ∧
                    status_of h st' = Fulfilled (VPokemon data)) ∧
  (∀ id url,
     requests st !! h = Some {| producer := FetchMove url (toString id); status := Pending |} →
     Cache.get (toString id) (pokemonCache st) = None →
     getPokemon id st = (st, RequestPromise h) ∧
     ∀ power, ∃ st', settle h (Success (MoveData power)) st = Some st' ∧
                     status_of h st' = Fulfilled (VMove {| Move.name := toString id; Move.power := power |})).
Proof.
  intros Hreach. apply Net_reachable_inv in Hreach as Hinv. split.
  - intros id url Hh Hmiss.
    pose proof (inv_registered _ Hinv _ _ Hh) as Hreg. simpl in Hreg. split.
    + unfold getMove. by rewrite Hmiss, Hreg.
    + intros data. exists (then_pokemon h id data st). split.
      * unfold settle. by rewrite Hh.
      * unfold status_of, then_pokemon. simpl.
        rewrite list_lookup_insert_eq; [done | by eapply lookup_lt_Some].
  - intros id url Hh Hmiss.
    pose proof (inv_registered _ Hinv _ _ Hh) as Hreg. simpl in Hreg. split.
    + unfold getPokemon. by rewrite Hmiss, Hreg.
    + intros power. exists (then_move h url (toString id) power st). split.
      * unfold settle. by rewrite Hh.
      * unfold status_of, then_move. simpl.
        rewrite list_lookup_insert_eq; [done | by eapply lookup_lt_Some].
Qed.

Lemma shared_registry_crosstalk_witness :
  (getMove "https://pokeapi.co/api/v2/move/25/" (toString 25) (getPokemon 25 Net_init).1
     = ((getPokemon 25 Net_init).1, RequestPromise 0) ∧
   ∀ data, ∃ st', settle 0 (Success (PokemonData data)) (getPokemon 25 Net_init).1 = Some st' ∧
                  status_of 0 st' = Fulfilled (VPokemon data)) ∧
  (getPokemon 25 (getMove "https://pokeapi.co/api/v2/move/25/" "25" Net_init).1
     = ((getMove "https://pokeapi.co/api/v2/move/25/" "25" Net_init).1, RequestPromise 0) ∧
   ∀ power, ∃ st', settle 0 (Success (MoveData power))
                     (getMove "https://pokeapi.co/api/v2/move/25/" "25" Net_init).1 = Some st' ∧
                   status_of 0 st' = Fulfilled (VMove {| Move.name := toString 25; Move.power := power |})).
Proof.
  split.
  - apply (proj1 (shared_registry_crosstalk (getPokemon 25 Net_init).1 0
                    ltac:(exists [CallGetPokemon 25]; reflexivity)) 25); reflexivity.
  - apply (proj2 (shared_registry_crosstalk
                    (getMove "https://pokeapi.co/api/v2/move/25/" "25" Net_init).1 0
                    ltac:(exists [CallGetMove "https://pokeapi.co/api/v2/move/25/" "25"]; reflexivity))
             25 "https://pokeapi.co/api/v2/move/25/"); reflexivity.
Defined.

(** *** Claims about the outcome of a battle *)

Section BattleFieldFacts.
Import BattleField.
Variable toUpperCase : string → string.

Lemma occurs_app c s1 s2 : occurs c (s1 +:+ s2) = occurs c s1 || occurs c s2.
Proof.
  induction s1 as [|c' s1 IH]; simpl; [done|].
  by rewrite IH, orb_assoc.
Qed.

(** The two messages never coincide: a decisive blow has the letter w. *)
Lemma DECISIVE_BLOW_not_TIE winner move loser :
  DECISIVE_BLOW toUpperCase winner move loser ≠ TIE.
Proof.
  intros Heq. apply (f_equal (occurs "w")) in Heq.
  unfold DECISIVE_BLOW in Heq. rewrite !occurs_app in Heq.
  replace (occurs "w" " lands a decisive blow with ") with true in Heq by reflexivity.
  replace (occurs "w" TIE) with false in Heq by reflexivity.
  rewrite orb_true_r in Heq. simpl in Heq. discriminate.
Qed.

(** C2: the outcome of a battle.  With two powers, the strictly higher one
    wins: the message is the decisive blow of that side's pokemon with that
    side's move against the other pokemon; equal powers give the tie message.
    With one power only, the side that has it wins.  With none, the tie
    message.  A decisive-blow message is never the tie message. *)
Theorem determineBattleOutcome_correct (p1 p2 : PokemonWithMove) :
  let blow (w l : PokemonWithMove) :=
    DECISIVE_BLOW toUpperCase (name (pokemon w)) (Move.name (move w)) (name (pokemon l)) in
  let power1 := Move.power (move p1) in
  let power2 := Move.power (move p2) in
  (∀ a b, power1 = Some a → power2 = Some b → a > b →
     determineBattleOutcome toUpperCase p1 p2 = blow p1 p2) ∧
  (∀ a b, power1 = Some a → power2 = Some b → b > a →
     determineBattleOutcome toUpperCase p1 p2 = blow p2 p1) ∧
  (∀ a, power1 = Some a → power2 = Some a →
     determineBattleOutcome toUpperCase p1 p2 = TIE) ∧
  (∀ a, power1 = Some a → power2 = None →
     determineBattleOutcome toUpperCase p1 p2 = blow p1 p2) ∧
  (∀ b, power1 = None → power2 = Some b →
     determineBattleOutcome toUpperCase p1 p2 = blow p2 p1) ∧
  (power1 = None → power2 = None →
     determineBattleOutcome toUpperCase p1 p2 = TIE) ∧
  (∀ w l, blow w l ≠ TIE).
Proof.
  intros blow power1 power2. subst blow power1 power2.
  unfold determineBattleOutcome. split_and!.
  - intros a b -> -> Hgt. destruct (Z.gtb_spec a b); [done | lia].
  - intros a b -> -> Hgt.
    destruct (Z.gtb_spec a b); [lia|]. destruct (Z.gtb_spec b a); [done | lia].
  - intros a -> ->. destruct (Z.gtb_spec a a); [lia | done].
  - by intros a -> ->.
  - by intros b -> ->.
  - by intros -> ->.
  - intros w l. apply DECISIVE_BLOW_not_TIE.
Qed.

End BattleFieldFacts.

(** The four literal cases of the tie-break rule. *)
Lemma determineBattleOutcome_correct_witness :
  let A := BattleField.contestant "pikachu" "thunder-shock" in
  let B := BattleField.contestant "onix" "rock-throw" in
  let outcome := BattleField.determineBattleOutcome BattleField.ascii_toUpperCase in
  outcome (A (Some 80)) (B (Some 80)) = "It's a tie! Both Pokemon are evenly matched!" ∧
  outcome (A (Some 80)) (B None)
    = "PIKACHU lands a decisive blow with THUNDER-SHOCK, knocking out ONIX!" ∧
  outcome (A None) (B None) = "It's a tie! Both Pokemon are evenly matched!" ∧
  outcome (A (Some 60)) (B (Some 90))
    = "ONIX lands a decisive blow with ROCK-THROW, knocking out PIKACHU!".
Proof.
  intros A B outcome. split_and!.
  - apply (proj1 (proj2 (proj2
      (determineBattleOutcome_correct BattleField.ascii_toUpperCase (A (Some 80)) (B (Some 80)))))
      80); reflexivity.
  - apply (proj1 (proj2 (proj2 (proj2
      (determineBattleOutcome_correct BattleField.ascii_toUpperCase (A (Some 80)) (B None)))))
      80); reflexivity.
  - apply (proj1 (proj2 (proj2 (proj2 (proj2 (proj2
      (determineBattleOutcome_correct BattleField.ascii_toUpperCase (A None) (B None))))))));
      reflexivity.
  - apply (proj1 (proj2
      (determineBattleOutcome_correct BattleField.ascii_toUpperCase (A (Some 60)) (B (Some 90))))
      60 90); [reflexivity | reflexivity | lia].
Defined.

(** *** Claims about getRandomPokemonIds *)

Lemma random_below_range (r : Q) (n : Z) :
  unit_interval r → 1 ≤ n → 0 ≤ random_below r n ≤ n - 1.
Proof.
  intros [Hr0 Hr1] Hn. unfold random_below.
  assert (Hn0 : (0 < inject_Z n)%Q).
  { change (inject_Z 0 < inject_Z n)%Q. rewrite <- Zlt_Qlt. lia. }
  split.
  - rewrite <- (Qfloor_Z 0). apply Qfloor_resp_le.
    apply Qmult_le_0_compat; [done | by apply Qlt_le_weak].
  - assert (Hlt : (inject_Z (Qfloor (r * inject_Z n)) < inject_Z n)%Q).
    { eapply Qle_lt_trans; [apply Qfloor_le|].
      rewrite <- (Qmult_1_l (inject_Z n)) at 2.
      by apply Qmult_lt_compat_r. }
    rewrite <- Zlt_Qlt in Hlt. lia.
Qed.

Lemma Set_add_NoDup x ids : NoDup ids → NoDup (Set_add x ids).
Proof.
  intros Hnd. unfold Set_add. case_decide as Hin; [done|].
  apply NoDup_app. split_and!; [done | | apply NoDup_singleton].
  intros y Hy ->%list_elem_of_singleton. done.
Qed.

Lemma Set_add_Forall (P : Z → Prop) x ids :
  P x → Forall P ids → Forall P (Set_add x ids).
Proof.
  intros Hx Hids. unfold Set_add. case_decide; [done|].
  apply Forall_app. split; [done | by apply Forall_singleton].
Qed.

Lemma Set_add_length x ids : (length (Set_add x ids) ≤ S (length ids))%nat.
Proof.
  unfold Set_add. case_decide; [lia|]. rewrite length_app. simpl. lia.
Qed.

Lemma getRandomPokemonIds_loop_unfold draws count maxId ids :
  getRandomPokemonIds_loop draws count maxId ids =
  if Z.of_nat (length ids) <? count then
    match draws with
    | [] => None
    | r :: draws' =>
        getRandomPokemonIds_loop draws' count maxId (Set_add (random_below r maxId + 1) ids)
    end
  else Some ids.
Proof. by destruct draws. Qed.

(** The loop keeps a set of distinct ids within range and stops exactly when
    there are [count] of them. *)
Lemma getRandomPokemonIds_loop_spec draws count maxId ids res :
  Forall unit_interval draws → 1 ≤ maxId →
  NoDup ids → Forall (λ id, 1 ≤ id ≤ maxId) ids → Z.of_nat (length ids) ≤ count →
  getRandomPokemonIds_loop draws count maxId ids = Some res →
  Z.of_nat (length res) = count ∧ NoDup res ∧ Forall (λ id, 1 ≤ id ≤ maxId) res.
Proof.
  intros Hdraws Hmax. revert ids.
  induction Hdraws as [|r draws Hr Hdraws IH]; intros ids Hnd Hrange Hlen;
    rewrite getRandomPokemonIds_loop_unfold;
    destruct (Z.ltb_spec (Z.of_nat (length ids)) count) as [Hlt|Hge];
    try done; try (intros [= <-]; split_and!; [lia | done | done]).
  apply IH.
  - by apply Set_add_NoDup.
  - apply Set_add_Forall; [|done].
    pose proof (random_below_range r maxId Hr Hmax). simpl. lia.
  - pose proof (Set_add_length (random_below r maxId + 1) ids). lia.
Qed.

(** C10, as stated, fails: with [maxId = 0] the call
    [getRandomPokemonIds(1, 0)] returns [[1]], and 1 is not between 1 and 0;
    with a negative [count] the call returns the empty array, whose length is
    not [count]. *)
Lemma getRandomPokemonIds_counterexample :
  (unit_interval (1 # 2) ∧
   getRandomPokemonIds [(1 # 2)%Q] 1 0 = Some [1] ∧ ¬ (1 ≤ 1 ≤ 0)) ∧
  (getRandomPokemonIds [] (-1) 151 = Some [] ∧ Z.of_nat (length (@nil Z)) ≠ -1).
Proof.
  split_and!; try reflexivity; try lia.
  unfold unit_interval, Qle, Qlt. simpl. lia.
Qed.

(** C10 (amended): for [count >= 0] and [maxId >= 1], whenever
    [getRandomPokemonIds(count, maxId)] returns, the result has exactly
    [count] elements, pairwise distinct, each between 1 and [maxId]; and the
    two ids that a round fetches are distinct ids between 1 and 151. *)
Theorem getRandomPokemonIds_distinct_in_range (draws : list Q) :
  Forall unit_interval draws →
  (∀ count maxId ids,
     0 ≤ count → 1 ≤ maxId →
     getRandomPokemonIds draws count maxId = Some ids →
     Z.of_nat (length ids) = count ∧ NoDup ids ∧ Forall (λ id, 1 ≤ id ≤ maxId) ids) ∧
  (∀ st st',
     getTwoRandomPokemons draws st = Some st' →
     ∃ id1 id2,
       getRandomPokemonIds draws 2 151 = Some [id1; id2] ∧
       id1 ≠ id2 ∧ 1 ≤ id1 ≤ 151 ∧ 1 ≤ id2 ≤ 151 ∧
       net st' = (getPokemon id2 (getPokemon id1 (net st)).1).1).
Proof.
  intros Hdraws.
  assert (Hspec : ∀ count maxId ids,
     0 ≤ count → 1 ≤ maxId →
     getRandomPokemonIds draws count maxId = Some ids →
     Z.of_nat (length ids) = count ∧ NoDup ids ∧ Forall (λ id, 1 ≤ id ≤ maxId) ids).
  { intros count maxId ids Hcount Hmax Hres.
    apply (getRandomPokemonIds_loop_spec draws count maxId []);
      first [done | apply NoDup_nil_2 | simpl; lia]. }
  split; [done|].
  intros st st' Hstart. unfold getTwoRandomPokemons in Hstart.
  destruct (getRandomPokemonIds draws 2 151) as [ids|] eqn:Hids; [|done].
  destruct (Hspec 2 151 ids ltac:(lia) ltac:(lia) Hids) as (Hlen & Hnd & Hrange).
  destruct ids as [|id1 [|id2 [|id3 ids]]]; simpl in Hlen; try lia.
  exists id1, id2.
  apply NoDup_cons in Hnd as [Hne _]. rewrite list_elem_of_singleton in Hne.
  apply Forall_cons in Hrange as [Hr1 Hrange]. apply Forall_cons in Hrange as [Hr2 _].
  split_and!; try done; try lia.
  revert Hstart.
  destruct (getPokemon id1 (net st)) as [n1 p1] eqn:H1. simpl.
  destruct (getPokemon id2 n1) as [n2 p2] eqn:H2.
  by intros [= <-].
Qed.

Lemma getRandomPokemonIds_distinct_in_range_witness :
  (Z.of_nat (length [76; 1]) = 2 ∧ NoDup [76; 1] ∧ Forall (λ id, 1 ≤ id ≤ 151) [76; 1]) ∧
  ∃ id1 id2,
    getRandomPokemonIds [(1 # 2)%Q; (0 # 1)%Q] 2 151 = Some [id1; id2] ∧
    id1 ≠ id2 ∧ 1 ≤ id1 ≤ 151 ∧ 1 ≤ id2 ≤ 151 ∧
    net (default App_init (getTwoRandomPokemons [(1 # 2)%Q; (0 # 1)%Q] App_init))
      = (getPokemon id2 (getPokemon id1 (net App_init)).1).1.
Proof.
  assert (Hdraws : Forall unit_interval [(1 # 2)%Q; (0 # 1)%Q]).
  { repeat constructor; unfold Qle, Qlt; simpl; lia. }
  split.
  - apply (proj1 (getRandomPokemonIds_distinct_in_range _ Hdraws) 2 151 [76; 1]);
      [lia | lia | reflexivity].
  - apply (proj2 (getRandomPokemonIds_distinct_in_range _ Hdraws) App_init). reflexivity.
Defined.

(** *** Claims about a round *)

Lemma attachMove_empty p r st :
  Pokemon.moves p = [] →
  attachMove (VPokemon p) r st
  = (st, InnerReturned {| pokemon := p; move := VMove no_moves_available |}).
Proof. intros Hm. unfold attachMove. by rewrite Hm. Qed.

Lemma with_stage_lookup r s st rd :
  rounds st !! r = Some rd →
  rounds (with_stage r s st) !! r = Some {| aborted := aborted rd; stage := s |}.
Proof.
  intros Hr. unfold with_stage. simpl.
  by rewrite list_lookup_alter_eq, Hr.
Qed.

(** C8: a pokemon without moves.  The arrow function returns the pokemon
    paired with the sentinel move and leaves the request layer as it was
    (no move is fetched).  In a live round whose two pokemons have arrived,
    the continuation therefore reaches the second [await] with the pair
    already there, touching the request layer for the other pokemon only and
    leaving [error] alone; and when the other pair is there as well, the
    round ends by showing both pairs with [loading] off and [error]
    unchanged. *)
Theorem empty_moves_sentinel (p : Pokemon.t) :
  Pokemon.moves p = [] →
  let sentinel :=
    {| pokemon := p;
       move := VMove {| Move.name := "No moves available"; Move.power := None |} |} in
  (∀ q st, attachMove (VPokemon p) q st = (st, InnerReturned sentinel)) ∧
  (∀ st r a1 a2 other q1 q2,
     rounds st !! r = Some {| aborted := false; stage := AwaitPokemons a1 a2 |} →
     promise_input (net st) a1 = InFulfilled (VPokemon p) →
     promise_input (net st) a2 = InFulfilled other →
     ∃ st', resume r q1 q2 st = Some st' ∧
       rounds st' !! r = Some {| aborted := false;
                                 stage := AwaitMoves (InnerReturned sentinel)
                                            (attachMove other q2 (net st)).2 |} ∧
       net st' = (attachMove other q2 (net st)).1 ∧
       pokemons st' = pokemons st ∧ loading st' = loading st ∧ error st' = error st) ∧
  (∀ st r a1 a2 other q1 q2,
     rounds st !! r = Some {| aborted := false; stage := AwaitPokemons a1 a2 |} →
     promise_input (net st) a1 = InFulfilled other →
     promise_input (net st) a2 = InFulfilled (VPokemon p) →
     ∃ st', resume r q1 q2 st = Some st' ∧
       rounds st' !! r = Some {| aborted := false;
                                 stage := AwaitMoves (attachMove other q1 (net st)).2
                                            (InnerReturned sentinel) |} ∧
       net st' = (attachMove other q1 (net st)).1 ∧
       pokemons st' = pokemons st ∧ loading st' = loading st ∧ error st' = error st) ∧
  (∀ st r m x q1 q2,
     rounds st !! r = Some {| aborted := false; stage := AwaitMoves (InnerReturned sentinel) m |} →
     inner_input (net st) m = InFulfilled x →
     ∃ st', resume r q1 q2 st = Some st' ∧
       pokemons st' = [sentinel; x] ∧ loading st' = false ∧ error st' = error st) ∧
  (∀ st r m x q1 q2,
     rounds st !! r = Some {| aborted := false; stage := AwaitMoves m (InnerReturned sentinel) |} →
     inner_input (net st) m = InFulfilled x →
     ∃ st', resume r q1 q2 st = Some st' ∧
       pokemons st' = [x; sentinel] ∧ loading st' = false ∧ error st' = error st).
Proof.
  intros Hm sentinel. subst sentinel.
  change {| Move.name := "No moves available"; Move.power := None |} with no_moves_available.
  split_and!.
  - intros q st. by apply attachMove_empty.
  - intros st r a1 a2 other q1 q2 Hr H1 H2.
    unfold resume. rewrite Hr. cbn [stage aborted]. rewrite H1, H2. cbn [promise_all].
    rewrite (attachMove_empty p q1 (net st) Hm).
    destruct (attachMove other q2 (net st)) as [n2 m2] eqn:Hother.
    eexists. split; [done|]. split_and!; try done.
    simpl. by rewrite list_lookup_alter_eq, Hr.
  - intros st r a1 a2 other q1 q2 Hr H1 H2.
    unfold resume. rewrite Hr. cbn [stage aborted]. rewrite H1, H2. cbn [promise_all].
    destruct (attachMove other q1 (net st)) as [n1 m1] eqn:Hother.
    rewrite (attachMove_empty p q2 n1 Hm).
    eexists. split; [done|]. split_and!; try done.
    simpl. by rewrite list_lookup_alter_eq, Hr.
  - intros st r m x q1 q2 Hr Hx.
    unfold resume. rewrite Hr. simpl. rewrite Hx. simpl.
    eexists. split; [done|]. done.
  - intros st r m x q1 q2 Hr Hx.
    unfold resume. rewrite Hr. simpl. rewrite Hx. simpl.
    eexists. split; [done|]. done.
Qed.

Lemma empty_moves_sentinel_witness :
  attachMove (VPokemon moveless) (1 # 2) Net_init
  = (Net_init,
     InnerReturned
       {| pokemon := moveless;
          move := VMove {| Move.name := "No moves available"; Move.power := None |} |}).
Proof.
  apply (proj1 (empty_moves_sentinel moveless eq_refl) (1 # 2)%Q Net_init).
Defined.

(** A whole round in which the second pokemon has no moves: both pairs are
    shown, the second with the sentinel, and three requests were made. *)
Example round_with_moveless_pokemon :
  ∃ st, run [StartRound [(1 # 2)%Q; (0 # 1)%Q];
             Response 0 (Success (PokemonData pikachu));
             Response 1 (Success (PokemonData moveless));
             Resume 0 (0 # 1) (0 # 1);
             Response 2 (Success (MoveData (Some 40)));
             Resume 0 (0 # 1) (0 # 1)] App_init = Some st ∧
    pokemons st =
      [{| pokemon := pikachu;
          move := VMove {| Move.name := "thunder-shock"; Move.power := Some 40 |} |};
       {| pokemon := moveless; move := VMove no_moves_available |}] ∧
    loading st = false ∧ error st = None ∧ length (requests (net st)) = 3%nat.
Proof. eexists. split; [reflexivity|]. repeat split. Qed.

(** *** Cancellation *)

Lemma abort_current_length st : length (abort_current st) = length (rounds st).
Proof. unfold abort_current. destruct (abortControllerRef st); [apply length_alter | done]. Qed.

(** Aborting the current controller leaves every other round alone, and
    never clears a flag. *)
Lemma abort_current_lookup st r rd' :
  abort_current st !! r = Some rd' →
  (abortControllerRef st ≠ Some r ∧ rounds st !! r = Some rd') ∨
  (abortControllerRef st = Some r ∧ aborted rd' = true).
Proof.
  unfold abort_current. destruct (abortControllerRef st) as [c|]; [|by left].
  destruct (decide (c = r)) as [->|Hne].
  - rewrite list_lookup_alter_eq. destruct (rounds st !! r) as [rd|]; [|done].
    simpl. intros [= <-]. by right.
  - rewrite list_lookup_alter_ne by done. intros Hr. left. split; [congruence | done].
Qed.

Lemma App_inv_init : App_inv App_init.
Proof. split; simpl; [intros r rd Hr | intros c Hc]; done. Qed.

(** What [resume] may change besides the visible state and the request
    layer: the stage of the round that resumed. *)
Lemma resume_rounds r q1 q2 st st' :
  resume r q1 q2 st = Some st' →
  abortControllerRef st' = abortControllerRef st ∧
  ∃ s, rounds st' = alter (λ rd, {| aborted := aborted rd; stage := s |}) r (rounds st).
Proof.
  unfold resume. destruct (rounds st !! r) as [rd|]; [|done].
  destruct (stage rd) as [a1 a2|m1 m2|]; [| |done].
  - destruct (promise_all _ _) as [|p1 p2|err]; [done| |].
    + destruct (aborted rd).
      * intros [= <-]. split; [done | by eexists].
      * destruct (attachMove p1 q1 (net st)) as [n1 i1].
        destruct (attachMove p2 q2 n1) as [n2 i2].
        intros [= <-]. split; [done | by eexists].
    + intros [= <-]. unfold catch_block. destruct (aborted rd); (split; [done | by eexists]).
  - destruct (promise_all _ _) as [|x1 x2|err]; [done| |]; intros [= <-].
    + unfold show_pokemons. destruct (aborted rd); (split; [done | by eexists]).
    + unfold catch_block. destruct (aborted rd); (split; [done | by eexists]).
Qed.

Lemma respond_rounds h o st st' :
  respond h o st = Some st' →
  abortControllerRef st' = abortControllerRef st ∧ rounds st' = rounds st ∧
  pokemons st' = pokemons st ∧ loading st' = loading st ∧ error st' = error st ∧
  settle h o (net st) = Some (net st').
Proof.
  unfold respond. destruct (settle h o (net st)) as [n|]; [|done].
  by intros [= <-].
Qed.

Lemma getTwoRandomPokemons_rounds draws st st' :
  getTwoRandomPokemons draws st = Some st' →
  abortControllerRef st' = Some (length (rounds st)) ∧
  ∃ p1 p2, rounds st' = abort_current st ++ [{| aborted := false; stage := AwaitPokemons p1 p2 |}].
Proof.
  unfold getTwoRandomPokemons.
  destruct (getRandomPokemonIds draws 2 151) as [[|id1 [|id2 ids]]|]; try done.
  destruct (getPokemon id1 (net st)) as [n1 p1].
  destruct (getPokemon id2 n1) as [n2 p2].
  intros [= <-]. split; [done | by eexists _, _].
Qed.

Lemma step_App_inv e st st' : App_inv st → step e st = Some st' → App_inv st'.
Proof.
  intros [I1 I2]. destruct e as [draws|h o|r q1 q2|]; simpl.
  - intros Hs. apply getTwoRandomPokemons_rounds in Hs as (Href & p1 & p2 & Hrounds).
    split; rewrite Href, Hrounds.
    + intros r rd Hr Hne.
      apply lookup_app_Some in Hr as [Hr | [Hge Hr]].
      * apply abort_current_lookup in Hr as [[Hc Hr] | [_ Hab]]; [|done].
        by eapply I1.
      * rewrite abort_current_length in Hge, Hr.
        apply list_lookup_singleton_Some in Hr as [Hz _].
        exfalso. apply Hne. f_equal. lia.
    + intros c [= <-]. rewrite length_app, abort_current_length. simpl. lia.
  - intros Hs. apply respond_rounds in Hs as (Href & Hrounds & _).
    split; rewrite Href, Hrounds; done.
  - intros Hs. apply resume_rounds in Hs as (Href & s & Hrounds).
    split; rewrite Href, Hrounds.
    + intros r' rd' Hr' Hne. destruct (decide (r = r')) as [->|Hrr].
      * rewrite list_lookup_alter_eq in Hr'.
        destruct (rounds st !! r') as [rd|] eqn:Hrd; [|done].
        simpl in Hr'. injection Hr' as <-. simpl. by eapply I1.
      * rewrite list_lookup_alter_ne in Hr' by done. by eapply I1.
    + intros c Hc. rewrite length_alter. by apply I2.
  - intros [= <-]. split; simpl.
    + intros r rd Hr Hne.
      apply abort_current_lookup in Hr as [[Hc Hr] | [Hc _]]; [|done].
      by eapply I1.
    + intros c Hc. rewrite abort_current_length. by apply I2.
Qed.

Lemma run_App_inv es st st' : App_inv st → run es st = Some st' → App_inv st'.
Proof.
  revert st. induction es as [|e es IH]; simpl; intros st Hinv.
  - by intros [= <-].
  - destruct (step e st) as [st1|] eqn:He; [|done].
    apply IH. by eapply step_App_inv.
Qed.

(** Once a round has been started on top of [n] earlier ones,
    [abortControllerRef] never points at one of those again. *)
Lemma run_current_newer es st st' n :
  run es st = Some st' →
  (n ≤ length (rounds st))%nat → (∀ c, abortControllerRef st = Some c → (n ≤ c)%nat) →
  (n ≤ length (rounds st'))%nat ∧ (∀ c, abortControllerRef st' = Some c → (n ≤ c)%nat).
Proof.
  revert st. induction es as [|e es IH]; simpl; intros st.
  - by intros [= <-].
  - destruct (step e st) as [st1|] eqn:He; [|done].
    intros Hrun Hlen Href. apply (IH st1 Hrun).
    + destruct e as [draws|h o|r q1 q2|]; simpl in He.
      * apply getTwoRandomPokemons_rounds in He as (_ & p1 & p2 & ->).
        rewrite length_app, abort_current_length. lia.
      * apply respond_rounds in He as (_ & -> & _). done.
      * apply resume_rounds in He as (_ & s & ->). by rewrite length_alter.
      * injection He as <-. simpl. by rewrite abort_current_length.
    + destruct e as [draws|h o|r q1 q2|]; simpl in He.
      * apply getTwoRandomPokemons_rounds in He as (-> & _). intros c [= <-]. done.
      * apply respond_rounds in He as (-> & _). done.
      * apply resume_rounds in He as (-> & _). done.
      * injection He as <-. done.
Qed.

(** An aborted round that resumes changes neither the visible state nor the
    request layer. *)
Lemma resume_aborted r q1 q2 st st' rd :
  rounds st !! r = Some rd → aborted rd = true →
  resume r q1 q2 st = Some st' →
  pokemons st' = pokemons st ∧ loading st' = loading st ∧ error st' = error st ∧
  net st' = net st.
Proof.
  intros Hr Hab. unfold resume. rewrite Hr.
  destruct (stage rd) as [a1 a2|m1 m2|]; [| |done].
  - destruct (promise_all _ _) as [|p1 p2|err]; [done| |].
    + rewrite Hab. by intros [= <-].
    + unfold catch_block. rewrite Hab. by intros [= <-].
  - destruct (promise_all _ _) as [|x1 x2|err]; [done| |]; intros [= <-].
    + unfold show_pokemons. by rewrite Hab.
    + unfold catch_block. by rewrite Hab.
Qed.

Lemma resolve_keeps_requests p st h r :
  requests st !! h = Some r → requests (resolve p st).1 !! h = Some r.
Proof.
  intros Hr. destruct (resolve_requests p st) as [-> | [_ ->]]; [done|].
  by apply lookup_app_l_Some.
Qed.

Lemma attachMove_keeps_requests p q st h r :
  requests st !! h = Some r → requests (attachMove p q st).1 !! h = Some r.
Proof.
  intros Hr. unfold attachMove. destruct p as [p|m]; [|done].
  case_decide; [done|].
  destruct (array_get _ _) as [randomMove|]; [|done].
  pose proof (resolve_keeps_requests
                (FetchMove (ref_url randomMove) (ref_name randomMove)) st h r Hr) as Hk.
  simpl in Hk. by destruct (getMove _ _ st).
Qed.

(** Nothing but its own response settles a request: the start of a round
    (which aborts the controller of the previous one), a resumption, a
    cleanup and the responses to other requests leave it as it is. *)
Lemma step_keeps_request e st st' h r :
  step e st = Some st' →
  (∀ o, e ≠ Response h o) →
  requests (net st) !! h = Some r →
  requests (net st') !! h = Some r.
Proof.
  intros Hstep Hne Hr. destruct e as [draws|h' o|r0 q1 q2|]; simpl in Hstep.
  - unfold getTwoRandomPokemons in Hstep.
    destruct (getRandomPokemonIds draws 2 151) as [[|id1 [|id2 ids]]|]; try done.
    pose proof (resolve_keeps_requests (FetchPokemon id1) (net st) h r Hr) as H1.
    simpl in H1. destruct (getPokemon id1 (net st)) as [n1 p1].
    pose proof (resolve_keeps_requests (FetchPokemon id2) n1 h r H1) as H2.
    simpl in H2. destruct (getPokemon id2 n1) as [n2 p2].
    by injection Hstep as <-.
  - apply respond_rounds in Hstep as (_ & _ & _ & _ & _ & Hs).
    apply settle_requests in Hs as (p & s & _ & _ & ->).
    rewrite list_lookup_insert_ne; [done|]. intros ->. by apply (Hne o).
  - revert Hstep. unfold resume. destruct (rounds st !! r0) as [rd|]; [|done].
    destruct (stage rd) as [a1 a2|m1 m2|]; [| |done].
    + destruct (promise_all _ _) as [|p1 p2|err]; [done| |].
      * destruct (aborted rd); [by intros [= <-]|].
        pose proof (attachMove_keeps_requests p1 q1 (net st) h r Hr) as H1.
        destruct (attachMove p1 q1 (net st)) as [n1 i1].
        pose proof (attachMove_keeps_requests p2 q2 n1 h r H1) as H2.
        destruct (attachMove p2 q2 n1) as [n2 i2].
        by intros [= <-].
      * intros [= <-]. unfold catch_block. by destruct (aborted rd).
    + destruct (promise_all _ _) as [|x1 x2|err]; [done| |]; intros [= <-].
      * unfold show_pokemons. by destruct (aborted rd).
      * unfold catch_block. by destruct (aborted rd).
  - by injection Hstep as <-.
Qed.

Lemma run_keeps_request es st st' h r :
  run es st = Some st' →
  Forall (λ e, ∀ o, e ≠ Response h o) es →
  requests (net st) !! h = Some r →
  requests (net st') !! h = Some r.
Proof.
  intros Hrun Hes. revert st Hrun. induction Hes as [|e es He Hes IH]; simpl; intros st.
  - by intros [= <-].
  - destruct (step e st) as [st1|] eqn:Hstep; [|done].
    intros Hrun Hr. apply (IH st1 Hrun). by eapply step_keeps_request.
Qed.

(** C7: a superseded round.  Round [r] was started, then a newer round was
    started, then anything happened.  From then on: if round [r] resumes,
    [pokemons], [loading] and [error] stay what they are, and it starts no
    request.  Yet its calls are not cancelled: every request that was
    pending when the newer round started is still pending right after that
    start, and stays pending until its own response arrives; and every
    pending request can be answered, a successful answer being stored in
    the cache of its kind and fulfilling its promise, without touching the
    visible state. *)
Theorem superseded_round_is_ignored
    (evs1 : list Event) (draws : list Q) (evs2 : list Event) (st1 st2 st3 : App) (r : nat) :
  run evs1 App_init = Some st1 →
  (r < length (rounds st1))%nat →
  getTwoRandomPokemons draws st1 = Some st2 →
  run evs2 st2 = Some st3 →
  (∀ q1 q2 st4, resume r q1 q2 st3 = Some st4 →
     pokemons st4 = pokemons st3 ∧ loading st4 = loading st3 ∧ error st4 = error st3 ∧
     net st4 = net st3) ∧
  (∀ h p,
     requests (net st1) !! h = Some {| producer := p; status := Pending |} →
     requests (net st2) !! h = Some {| producer := p; status := Pending |} ∧
     (Forall (λ e, ∀ o, e ≠ Response h o) evs2 →
      requests (net st3) !! h = Some {| producer := p; status := Pending |})) ∧
  (∀ h id data,
     requests (net st3) !! h = Some {| producer := FetchPokemon id; status := Pending |} →
     ∃ st4, respond h (Success (PokemonData data)) st3 = Some st4 ∧
       Cache.get (toString id) (pokemonCache (net st4)) = Some data ∧
       status_of h (net st4) = Fulfilled (VPokemon data) ∧
       pokemons st4 = pokemons st3 ∧ loading st4 = loading st3 ∧ error st4 = error st3) ∧
  (∀ h url name power,
     requests (net st3) !! h = Some {| producer := FetchMove url name; status := Pending |} →
     ∃ st4, respond h (Success (MoveData power)) st3 = Some st4 ∧
       Cache.get name (moveCache (net st4)) = Some {| Move.name := name; Move.power := power |} ∧
       status_of h (net st4) = Fulfilled (VMove {| Move.name := name; Move.power := power |}) ∧
       pokemons st4 = pokemons st3 ∧ loading st4 = loading st3 ∧ error st4 = error st3).
Proof.
  intros Hrun1 Hr Hstart Hrun2.
  assert (Hinv3 : App_inv st3).
  { eapply run_App_inv; [|exact Hrun2].
    eapply (step_App_inv (StartRound draws)); [|exact Hstart].
    eapply run_App_inv; [apply App_inv_init | exact Hrun1]. }
  pose proof (getTwoRandomPokemons_rounds _ _ _ Hstart) as (Href2 & p1 & p2 & Hrounds2).
  destruct (run_current_newer evs2 st2 st3 (length (rounds st1)) Hrun2) as [Hlen3 Href3].
  { rewrite Hrounds2, length_app, abort_current_length. lia. }
  { rewrite Href2. intros c [= <-]. done. }
  split_and!.
  - intros q1 q2 st4 Hres.
    destruct (lookup_lt_is_Some_2 (rounds st3) r) as [rd Hrd]; [lia|].
    apply (resume_aborted r q1 q2 st3 st4 rd Hrd); [|done].
    apply (inv_superseded _ Hinv3 r rd Hrd).
    intros Hc. apply Href3 in Hc. lia.
  - intros h p Hh.
    assert (Hh2 : requests (net st2) !! h = Some {| producer := p; status := Pending |}).
    { apply (step_keeps_request (StartRound draws) st1 st2); [done | done | done]. }
    split; [done|]. intros Hes. by eapply run_keeps_request.
  - intros h id data Hh. unfold respond, settle. rewrite Hh.
    eexists. split; [done|]. simpl. split_and!; try done.
    + apply Cache_get_set_eq.
    + unfold status_of. simpl.
      rewrite list_lookup_insert_eq; [done | by eapply lookup_lt_Some].
  - intros h url name power Hh. unfold respond, settle. rewrite Hh.
    eexists. split; [done|]. simpl. split_and!; try done.
    + apply Cache_get_set_eq.
    + unfold status_of. simpl.
      rewrite list_lookup_insert_eq; [done | by eapply lookup_lt_Some].
Qed.

(** The second round supersedes the first while both pokemons of the first
    are in flight.  After the first response only, the second request of
    the first round is still pending and its late answer is cached; after
    both responses the first round resumes and nothing shown changes. *)
Lemma superseded_round_is_ignored_witness :
  (requests (net after_first_late_response) !! 1%nat
     = Some {| producer := FetchPokemon 1; status := Pending |} ∧
   ∃ st4, respond 1 (Success (PokemonData moveless)) after_first_late_response = Some st4 ∧
     Cache.get (toString 1) (pokemonCache (net st4)) = Some moveless ∧
     status_of 1 (net st4) = Fulfilled (VPokemon moveless) ∧
     pokemons st4 = pokemons after_first_late_response ∧
     loading st4 = loading after_first_late_response ∧
     error st4 = error after_first_late_response) ∧
  (∃ st4, resume 0 (0 # 1) (0 # 1) after_late_responses = Some st4 ∧
     pokemons st4 = pokemons after_late_responses ∧
     loading st4 = loading after_late_responses ∧
     error st4 = error after_late_responses ∧
     net st4 = net after_late_responses).
Proof.
  split.
  - destruct (superseded_round_is_ignored first_round second_round_draws first_late_response
                (default App_init (run first_round App_init))
                (default App_init (run (first_round ++ [StartRound second_round_draws]) App_init))
                after_first_late_response 0)
      as (_ & Hflight & Hpokemon & _).
    + reflexivity.
    + vm_compute. lia.
    + reflexivity.
    + reflexivity.
    + assert (Hpending : requests (net after_first_late_response) !! 1%nat
                         = Some {| producer := FetchPokemon 1; status := Pending |}).
      { apply (Hflight 1%nat (FetchPokemon 1)); [reflexivity|].
        repeat constructor; discriminate. }
      split; [exact Hpending|]. apply (Hpokemon 1%nat 1 moveless Hpending).
  - destruct (superseded_round_is_ignored first_round second_round_draws late_responses
                (default App_init (run first_round App_init))
                (default App_init (run (first_round ++ [StartRound second_round_draws]) App_init))
                after_late_responses 0)
      as (Hignored & _).
    + reflexivity.
    + vm_compute. lia.
    + reflexivity.
    + reflexivity.
    + exists (default App_init (resume 0 (0 # 1) (0 # 1) after_late_responses)).
      split; [reflexivity|].
      apply (Hignored (0 # 1)%Q (0 # 1)%Q). reflexivity.
Defined.

(** *** The component and the request layer *)

Lemma net_run_app es1 es2 st st1 st2 :
  net_run es1 st = Some st1 → net_run es2 st1 = Some st2 →
  net_run (es1 ++ es2) st = Some st2.
Proof.
  revert st. induction es1 as [|e es1 IH]; simpl; intros st.
  - by intros [= ->].
  - destruct (net_step e st) as [st'|]; [apply IH | done].
Qed.

Lemma attachMove_events p q st :
  ∃ es, net_run es st = Some (attachMove p q st).1.
Proof.
  unfold attachMove. destruct p as [p|m]; [|by exists []].
  case_decide; [by exists []|].
  destruct (array_get _ _) as [randomMove|]; [|by exists []].
  exists [CallGetMove (ref_url randomMove) (ref_name randomMove)]. simpl.
  by destruct (getMove _ _ st).
Qed.

(** Whatever the component does to the request layer, it does by calls of
    [getPokemon] and [getMove] and by responses. *)
Lemma step_net_events e st st' :
  step e st = Some st' → ∃ es, net_run es (net st) = Some (net st').
Proof.
  destruct e as [draws|h o|r q1 q2|]; simpl.
  - unfold getTwoRandomPokemons.
    destruct (getRandomPokemonIds draws 2 151) as [[|id1 [|id2 ids]]|]; try done.
    destruct (getPokemon id1 (net st)) as [n1 p1] eqn:H1.
    destruct (getPokemon id2 n1) as [n2 p2] eqn:H2.
    intros [= <-]. exists [CallGetPokemon id1; CallGetPokemon id2]. simpl.
    by rewrite H1; simpl; rewrite H2.
  - intros Hs. apply respond_rounds in Hs as (_ & _ & _ & _ & _ & Hs).
    exists [Settle h o]. simpl. by rewrite Hs.
  - unfold resume. destruct (rounds st !! r) as [rd|]; [|done].
    destruct (stage rd) as [a1 a2|m1 m2|]; [| |done].
    + destruct (promise_all _ _) as [|p1 p2|err]; [done| |].
      * destruct (aborted rd); [intros [= <-]; by exists []|].
        destruct (attachMove_events p1 q1 (net st)) as [es1 Hes1].
        destruct (attachMove p1 q1 (net st)) as [n1 i1].
        destruct (attachMove_events p2 q2 n1) as [es2 Hes2].
        destruct (attachMove p2 q2 n1) as [n2 i2].
        intros [= <-]. exists (es1 ++ es2). by eapply net_run_app.
      * intros [= <-]. exists []. unfold catch_block. by destruct (aborted rd).
    + destruct (promise_all _ _) as [|x1 x2|err]; [done| |]; intros [= <-]; exists [].
      * unfold show_pokemons. by destruct (aborted rd).
      * unfold catch_block. by destruct (aborted rd).
  - intros [= <-]. by exists [].
Qed.

(** Hence every statement made for the reachable states of the request layer
    holds in every state of the component. *)
Lemma App_reachable_net st : App_reachable st → Net_reachable (net st).
Proof.
  intros [es Hes].
  assert (Hgen : ∀ st0, Net_reachable (net st0) → run es st0 = Some st → Net_reachable (net st)).
  { clear Hes. induction es as [|e es IH]; simpl; intros st0 Hreach.
    - by intros [= <-].
    - destruct (step e st0) as [st1|] eqn:He; [|done].
      apply IH. destruct Hreach as [es0 Hes0].
      destruct (step_net_events _ _ _ He) as [es1 Hes1].
      exists (es0 ++ es1). by eapply net_run_app. }
  apply (Hgen App_init); [by exists [] | done].
Qed.

(** ** Part III. Further properties of the code *)

(** *** The cache: bound, round trip, what [set] leaves alone *)

Section CacheMore.
Context {T : Type}.
Implicit Types (m : list (string * T)) (c : Cache.t T) (k key : string) (v value : T).

Lemma JsMap_keys_set k v m :
  JsMap.keys (JsMap.set k v m)
  = if decide (k ∈ JsMap.keys m) then JsMap.keys m else JsMap.keys m ++ [k].
Proof.
  unfold JsMap.keys. induction m as [|[k' v'] m IH].
  - case_decide as Hin; [by apply elem_of_nil in Hin | done].
  - cbn [JsMap.set]. destruct (decide (k' = k)) as [->|Hne].
    + clear IH. case_decide as Hin; [reflexivity|].
      exfalso. apply Hin. apply list_elem_of_here.
    + change (k' :: (JsMap.set k v m).*1 =
              if decide (k ∈ k' :: m.*1) then k' :: m.*1 else k' :: (m.*1 ++ [k])).
      rewrite IH.
      destruct (decide (k ∈ m.*1)) as [Hin|Hnin]; case_decide as Hin'; try reflexivity.
      * exfalso. apply Hin'. by apply list_elem_of_further.
      * exfalso. apply elem_of_cons in Hin' as [?|?]; [congruence | done].
Qed.


Lemma JsMap_set_length k v m : (length (JsMap.set k v m) ≤ S (length m))%nat.
Proof.
  assert (Hlen : length (JsMap.set k v m) = length (JsMap.keys (JsMap.set k v m))).
  { unfold JsMap.keys. by rewrite length_fmap. }
  rewrite Hlen, JsMap_keys_set. unfold JsMap.keys.
  case_decide; rewrite ?length_app, length_fmap; simpl; lia.
Qed.


Lemma JsMap_delete_first_length k v m :
  (length (JsMap.delete k ((k, v) :: m)) ≤ length m)%nat.
Proof.
  unfold JsMap.delete. rewrite filter_cons_False by (simpl; tauto).
  apply length_filter.
Qed.

Lemma JsMap_get_delete_ne k k' m :
  k ≠ k' → JsMap.get k' (JsMap.delete k m) = JsMap.get k' m.
Proof.
  intros Hne. unfold JsMap.delete. induction m as [|[k0 v0] m IH]; [done|].
  destruct (decide (k0 = k)) as [->|Hk0].
  - rewrite filter_cons_False by (simpl; tauto). simpl.
    by rewrite decide_False.
  - rewrite filter_cons_True by done. simpl. by rewrite IH.
Qed.

Lemma Cache_set_bounded key value c :
  1 ≤ Cache.maxSize c →
  JsMap.size (Cache.cache c) ≤ Cache.maxSize c →
  JsMap.size (Cache.cache (Cache.set key value c)) ≤ Cache.maxSize c.
Proof.
  intros Hcap Hsize. unfold Cache.set, JsMap.size in *. simpl.
  destruct (Z.geb_spec (Z.of_nat (length (Cache.cache c))) (Cache.maxSize c)) as [Hfull|Hroom].
  - destruct (Cache.cache c) as [|[k0 v0] rest] eqn:Hstore; simpl in *; [lia|].
    pose proof (JsMap_set_length key value (JsMap.delete k0 ((k0, v0) :: rest))).
    pose proof (JsMap_delete_first_length k0 v0 rest). lia.
  - pose proof (JsMap_set_length key value (Cache.cache c)). lia.
Qed.



(** X2: write then read.  Whatever the cache holds and whatever its
    capacity, the value just written under a key is the value read back
    under it. *)
Theorem Cache_set_then_get key value c :
  Cache.get key (Cache.set key value c) = Some value.
Proof. unfold Cache.get, Cache.set. simpl. apply JsMap_get_set_eq. Qed.

(** X3: what [set] leaves alone.  A [set] changes what is read under
    another key only if that key is the oldest one of the store: every other
    entry is read back as before. *)
Theorem Cache_set_keeps_other_entries key value c k :
  k ≠ key →
  JsMap.first_key (Cache.cache c) ≠ Some k →
  Cache.get k (Cache.set key value c) = Cache.get k c.
Proof.
  intros Hne Hfirst. unfold Cache.get, Cache.set. simpl.
  rewrite JsMap_get_set_ne by done.
  destruct (_ >=? _); [|done].
  destruct (JsMap.first_key (Cache.cache c)) as [f|] eqn:Hf; [|done].
  apply JsMap_get_delete_ne. congruence.
Qed.

(** X4: overwriting below capacity.  When the store has room and the key
    is already there, [set] replaces the value and the order of the keys,
    hence the order of eviction, is what it was: the key is not moved to
    the newest position. *)
Theorem Cache_overwrite_keeps_position key value c :
  JsMap.size (Cache.cache c) < Cache.maxSize c →
  key ∈ JsMap.keys (Cache.cache c) →
  JsMap.keys (Cache.cache (Cache.set key value c)) = JsMap.keys (Cache.cache c) ∧
  Cache.get key (Cache.set key value c) = Some value.
Proof.
  intros Hroom Hin. split; [|apply Cache_get_set_eq].
  rewrite Cache_set_below_capacity by done.
  rewrite JsMap_keys_set. by rewrite decide_True.
Qed.

End CacheMore.


Lemma Cache_set_keeps_other_entries_witness :
  let c := Cache.run [Cache.OpSet "a" 1; Cache.OpSet "b" 2; Cache.OpSet "c" 3] (Cache.new 3) in
  Cache.get "b" (Cache.set "d" 4 c) = Cache.get "b" c.
Proof.
  apply (Cache_set_keeps_other_entries "d" 4
           (Cache.run [Cache.OpSet "a" 1; Cache.OpSet "b" 2; Cache.OpSet "c" 3] (Cache.new 3))
           "b").
  - discriminate.
  - vm_compute. discriminate.
Defined.

Lemma Cache_overwrite_keeps_position_witness :
  let c := Cache.run [Cache.OpSet "a" 1; Cache.OpSet "b" 2] (Cache.new 3) in
  JsMap.keys (Cache.cache (Cache.set "a" 9 c)) = JsMap.keys (Cache.cache c) ∧
  Cache.get "a" (Cache.set "a" 9 c) = Some 9.
Proof.
  apply (Cache_overwrite_keeps_position "a" 9
           (Cache.run [Cache.OpSet "a" 1; Cache.OpSet "b" 2] (Cache.new 3))).
  - vm_compute. reflexivity.
  - apply (bool_decide_unpack _). vm_compute. exact I.
Defined.

(** *** The request layer: registry, success, bounds *)

(** X5: the registry is exactly the set of pending requests.  In every
    reachable state, [activeRequests] maps a key to a promise if and only if
    that promise is the pending request for the key; in particular an entry
    is gone as soon as its request has settled. *)
Theorem registry_is_pending_requests (st : Net) (k : string) (h : nat) :
  Net_reachable st →
  (activeRequests st !! k = Some h ↔ pending h k st).
Proof.
  intros Hreach. apply Net_reachable_inv in Hreach as Hinv. split.
  - apply (inv_in_flight _ Hinv).
  - intros (p & Hp & <-). by apply (inv_registered _ Hinv).
Qed.

Lemma registry_is_pending_requests_witness :
  activeRequests (getPokemon 25 Net_init).1 !! "25" = Some 0%nat
  ↔ pending 0 "25" (getPokemon 25 Net_init).1.
Proof.
  apply (registry_is_pending_requests (getPokemon 25 Net_init).1 "25" 0).
  exists [CallGetPokemon 25]. reflexivity.
Defined.

(** X6: a successful response.  When the pending request of a pokemon (of a
    move) is answered, its promise is fulfilled with the pokemon (with the
    move made of the requested name and the [power] of the answer), its
    registry entry is deleted, and the next call for the same key returns
    that value from the cache and starts no request. *)
Theorem successful_response_is_cached (st : Net) (h : nat) :
  (∀ id data,
     requests st !! h = Some {| producer := FetchPokemon id; status := Pending |} →
     ∃ st', settle h (Success (PokemonData data)) st = Some st' ∧
       status_of h st' = Fulfilled (VPokemon data) ∧
       activeRequests st' !! toString id = None ∧
       getPokemon id st' = (st', Resolved (VPokemon data))) ∧
  (∀ url name power,
     requests st !! h = Some {| producer := FetchMove url name; status := Pending |} →
     let move := {| Move.name := name; Move.power := power |} in
     ∃ st', settle h (Success (MoveData power)) st = Some st' ∧
       status_of h st' = Fulfilled (VMove move) ∧
       activeRequests st' !! name = None ∧
       ∀ url', getMove url' name st' = (st', Resolved (VMove move))).
Proof.
  split.
  - intros id data Hh. exists (then_pokemon h id data st).
    assert (Hlt : (h < length (requests st))%nat) by (by eapply lookup_lt_Some).
    split_and!.
    + unfold settle. by rewrite Hh.
    + unfold status_of, then_pokemon. simpl. by rewrite list_lookup_insert_eq.
    + simpl. apply lookup_delete_eq.
    + unfold getPokemon. cbn [pokemonCache then_pokemon].
      by rewrite Cache_get_set_eq.
  - intros url name power Hh move. exists (then_move h url name power st).
    assert (Hlt : (h < length (requests st))%nat) by (by eapply lookup_lt_Some).
    split_and!.
    + unfold settle. by rewrite Hh.
    + unfold status_of, then_move. simpl. by rewrite list_lookup_insert_eq.
    + simpl. apply lookup_delete_eq.
    + intros url'. unfold getMove. cbn [moveCache then_move].
      by rewrite Cache_get_set_eq.
Qed.

Lemma successful_response_is_cached_witness :
  (∃ st', settle 0 (Success (PokemonData pikachu)) (getPokemon 25 Net_init).1 = Some st' ∧
     status_of 0 st' = Fulfilled (VPokemon pikachu) ∧
     activeRequests st' !! toString 25 = None ∧
     getPokemon 25 st' = (st', Resolved (VPokemon pikachu))) ∧
  (∃ st', settle 0 (Success (MoveData (Some 40)))
            (getMove "https://pokeapi.co/api/v2/move/84/" "thunder-shock" Net_init).1 = Some st' ∧
     status_of 0 st'
       = Fulfilled (VMove {| Move.name := "thunder-shock"; Move.power := Some 40 |}) ∧
     activeRequests st' !! "thunder-shock" = None ∧
     ∀ url', getMove url' "thunder-shock" st'
             = (st', Resolved (VMove {| Move.name := "thunder-shock"; Move.power := Some 40 |}))).
Proof.
  split.
  - apply (proj1 (successful_response_is_cached (getPokemon 25 Net_init).1 0) 25 pikachu).
    reflexivity.
  - apply (proj2 (successful_response_is_cached
                    (getMove "https://pokeapi.co/api/v2/move/84/" "thunder-shock" Net_init).1 0)
             "https://pokeapi.co/api/v2/move/84/" "thunder-shock" (Some 40)).
    reflexivity.
Defined.

Lemma resolve_caches p st :
  pokemonCache (resolve p st).1 = pokemonCache st ∧
  moveCache (resolve p st).1 = moveCache st.
Proof.
  destruct p as [id|url name]; simpl; [unfold getPokemon | unfold getMove];
    destruct (Cache.get _ _); try done;
    destruct (activeRequests st !! _); done.
Qed.

Lemma net_step_caches_bounded e st st' :
  net_step e st = Some st' →
  (Cache.maxSize (pokemonCache st') = Cache.maxSize (pokemonCache st) ∧
   Cache.maxSize (moveCache st') = Cache.maxSize (moveCache st)) ∧
  (1 ≤ Cache.maxSize (pokemonCache st) →
   JsMap.size (Cache.cache (pokemonCache st)) ≤ Cache.maxSize (pokemonCache st) →
   JsMap.size (Cache.cache (pokemonCache st')) ≤ Cache.maxSize (pokemonCache st)) ∧
  (1 ≤ Cache.maxSize (moveCache st) →
   JsMap.size (Cache.cache (moveCache st)) ≤ Cache.maxSize (moveCache st) →
   JsMap.size (Cache.cache (moveCache st')) ≤ Cache.maxSize (moveCache st)).
Proof.
  intros Hstep. apply net_step_resolve_or_settle in Hstep as [[p ->]|(h & o & Hs)].
  - destruct (resolve_caches p st) as [-> ->]. done.
  - unfold settle in Hs. destruct (requests st !! h) as [[p []]|]; try done.
    destruct o as [[data|power]|error], p as [id|url name]; try done;
      injection Hs as <-; simpl; split_and!; try done.
    + apply Cache_set_bounded.
    + apply Cache_set_bounded.
Qed.

(** X7: the caches stay within their capacities.  In every reachable state
    [pokemonCache] has capacity 50 and holds at most 50 pokemons, and
    [moveCache] has capacity 200 and holds at most 200 moves. *)
Theorem caches_within_capacity (st : Net) :
  Net_reachable st →
  Cache.maxSize (pokemonCache st) = 50 ∧
  JsMap.size (Cache.cache (pokemonCache st)) ≤ 50 ∧
  Cache.maxSize (moveCache st) = 200 ∧
  JsMap.size (Cache.cache (moveCache st)) ≤ 200.
Proof.
  intros [es Hes].
  assert (Hgen : ∀ st0,
    (Cache.maxSize (pokemonCache st0) = 50 ∧
     JsMap.size (Cache.cache (pokemonCache st0)) ≤ 50 ∧
     Cache.maxSize (moveCache st0) = 200 ∧
     JsMap.size (Cache.cache (moveCache st0)) ≤ 200) →
    net_run es st0 = Some st →
    Cache.maxSize (pokemonCache st) = 50 ∧
    JsMap.size (Cache.cache (pokemonCache st)) ≤ 50 ∧
    Cache.maxSize (moveCache st) = 200 ∧
    JsMap.size (Cache.cache (moveCache st)) ≤ 200).
  { clear Hes. induction es as [|e es IH]; simpl; intros st0 Hst0.
    - by intros [= <-].
    - destruct (net_step e st0) as [st1|] eqn:He; [|done].
      apply IH. destruct Hst0 as (Hp & Hps & Hm & Hms).
      destruct (net_step_caches_bounded _ _ _ He) as ([Hp1 Hm1] & Hps1 & Hms1).
      rewrite Hp1, Hm1, Hp, Hm in *. split_and!; try done.
      + apply Hps1; lia.
      + apply Hms1; lia. }
  apply (Hgen Net_init); [|done].
  unfold JsMap.size. simpl. lia.
Qed.

Lemma caches_within_capacity_witness :
  let st := (getPokemon 25 Net_init).1 in
  Cache.maxSize (pokemonCache st) = 50 ∧
  JsMap.size (Cache.cache (pokemonCache st)) ≤ 50 ∧
  Cache.maxSize (moveCache st) = 200 ∧
  JsMap.size (Cache.cache (moveCache st)) ≤ 200.
Proof.
  apply (caches_within_capacity (getPokemon 25 Net_init).1).
  exists [CallGetPokemon 25]. reflexivity.
Defined.

Lemma JsMap_get_delete_eq {T : Type} k (m : list (string * T)) :
  JsMap.get k (JsMap.delete k m) = None.
Proof.
  apply JsMap_get_None_keys. unfold JsMap.keys, JsMap.delete.
  intros Hin. apply list_elem_of_fmap in Hin as [e [-> He]].
  by apply list_elem_of_filter in He as [He _].
Qed.

(** What is read after a [set] was either just written or there before. *)
Lemma Cache_get_set_Some {T : Type} key k (value x : T) c :
  Cache.get k (Cache.set key value c) = Some x →
  (k = key ∧ x = value) ∨ (k ≠ key ∧ Cache.get k c = Some x).
Proof.
  destruct (decide (k = key)) as [->|Hne].
  - rewrite Cache_get_set_eq. intros [= <-]. by left.
  - intros Hget. right. split; [done|]. revert Hget.
    unfold Cache.get, Cache.set. simpl. rewrite JsMap_get_set_ne by done.
    destruct (_ >=? _); [|done].
    destruct (JsMap.first_key _) as [f|]; [|done].
    destruct (decide (f = k)) as [->|Hf].
    + by rewrite JsMap_get_delete_eq.
    + by rewrite JsMap_get_delete_ne.
Qed.

(** X8: a cached move carries the name it is cached under.  In every
    reachable state, the move read from [moveCache] under a name has that
    name. *)
Theorem cached_move_has_its_key (st : Net) (name : string) (m : Move.t) :
  Net_reachable st →
  Cache.get name (moveCache st) = Some m →
  Move.name m = name.
Proof.
  intros [es Hes]. revert name m.
  assert (Hgen : ∀ st0,
    (∀ name m, Cache.get name (moveCache st0) = Some m → Move.name m = name) →
    net_run es st0 = Some st →
    ∀ name m, Cache.get name (moveCache st) = Some m → Move.name m = name).
  { clear Hes. induction es as [|e es IH]; simpl; intros st0 Hst0.
    - by intros [= <-].
    - destruct (net_step e st0) as [st1|] eqn:He; [|done].
      apply IH. intros name m.
      apply net_step_resolve_or_settle in He as [[p ->]|(h & o & Hs)].
      + destruct (resolve_caches p st0) as [_ ->]. apply Hst0.
      + unfold settle in Hs. destruct (requests st0 !! h) as [[p []]|]; try done.
        destruct o as [[data|power]|error], p as [id|url name']; try done;
          injection Hs as <-; simpl; try apply Hst0.
        intros [[-> ->]|[_ Hold]]%Cache_get_set_Some; [done | by apply Hst0]. }
  apply (Hgen Net_init); [|done].
  intros name m. unfold Cache.get. simpl. done.
Qed.

Lemma cached_move_has_its_key_witness :
  ∃ st, net_run [CallGetMove "https://pokeapi.co/api/v2/move/84/" "thunder-shock";
                 Settle 0 (Success (MoveData (Some 40)))] Net_init = Some st ∧
    Move.name {| Move.name := "thunder-shock"; Move.power := Some 40 |} = "thunder-shock".
Proof.
  eexists. split; [reflexivity|].
  eapply (cached_move_has_its_key _ "thunder-shock").
  - exists [CallGetMove "https://pokeapi.co/api/v2/move/84/" "thunder-shock";
            Settle 0 (Success (MoveData (Some 40)))]. reflexivity.
  - reflexivity.
Defined.

(** X9: only a successful response writes to a cache.  Along any sequence
    of calls of [getPokemon] and [getMove] and of failed responses, both
    caches stay exactly as they were. *)
Theorem caches_change_only_on_success (es : list NetEvent) (st st' : Net) :
  Forall (λ e, is_success e = false) es →
  net_run es st = Some st' →
  pokemonCache st' = pokemonCache st ∧ moveCache st' = moveCache st.
Proof.
  intros Hes. revert st. induction Hes as [|e es He Hes IH]; simpl; intros st.
  - by intros [= <-].
  - destruct (net_step e st) as [st1|] eqn:Hstep; [|done].
    intros Hrun. destruct (IH _ Hrun) as [-> ->]. clear IH Hrun.
    destruct e as [id|url name|h o]; simpl in Hstep.
    + injection Hstep as <-. apply (resolve_caches (FetchPokemon id)).
    + injection Hstep as <-. apply (resolve_caches (FetchMove url name)).
    + destruct o as [data|error]; [done|].
      unfold settle in Hstep. destruct (requests st !! h) as [[p []]|]; try done.
      by injection Hstep as <-.
Qed.

Lemma caches_change_only_on_success_witness :
  ∃ st', net_run [CallGetPokemon 25; Settle 0 (Failure (ErrorObject "Network Error"));
                  CallGetPokemon 25] Net_init = Some st' ∧
    pokemonCache st' = pokemonCache Net_init ∧ moveCache st' = moveCache Net_init.
Proof.
  eexists. split; [reflexivity|].
  apply (caches_change_only_on_success
           [CallGetPokemon 25; Settle 0 (Failure (ErrorObject "Network Error"));
            CallGetPokemon 25] Net_init).
  - repeat constructor.
  - reflexivity.
Defined.

(** X10: a call never hands out a settled promise.  In every reachable
    state, when [getPokemon] or [getMove] returns a request promise rather
    than a cached value, that request is still pending. *)
Theorem returned_promise_is_pending (st : Net) (p : Producer) (h : nat) :
  Net_reachable st →
  (resolve p st).2 = RequestPromise h →
  status_of h (resolve p st).1 = Pending.
Proof.
  intros Hreach. apply Net_reachable_inv in Hreach as Hinv.
  assert (Hreg : ∀ k, activeRequests st !! k = Some h → status_of h st = Pending).
  { intros k Hk. destruct (inv_in_flight _ Hinv _ _ Hk) as (q & Hq & _).
    by rewrite (status_of_lookup _ _ _ Hq). }
  destruct p as [id|url name]; simpl; [unfold getPokemon | unfold getMove];
    (destruct (Cache.get _ _); [done|]);
    (destruct (activeRequests st !! _) eqn:Hk; simpl; intros [= <-];
     [by eapply Hreg | unfold status_of; simpl;
                       rewrite lookup_app_r by lia; by rewrite Nat.sub_diag]).
Qed.

Lemma returned_promise_is_pending_witness :
  status_of 0 (resolve (FetchPokemon 25) (getPokemon 25 Net_init).1).1 = Pending.
Proof.
  apply (returned_promise_is_pending (getPokemon 25 Net_init).1 (FetchPokemon 25) 0).
  - exists [CallGetPokemon 25]. reflexivity.
  - reflexivity.
Defined.

(** *** getRandomPokemonIds: when it cannot return *)




(** *** The component: what is shown *)

(** The ways a round can resume. *)
Lemma resume_cases r q1 q2 st st' :
  resume r q1 q2 st = Some st' →
  ∃ rd s,
    rounds st !! r = Some rd ∧ stage rd ≠ Returned ∧
    abortControllerRef st' = abortControllerRef st ∧
    rounds st' = alter (λ rd, {| aborted := aborted rd; stage := s |}) r (rounds st) ∧
    ((aborted rd = true ∧ s = Returned ∧
      pokemons st' = pokemons st ∧ loading st' = loading st ∧ error st' = error st) ∨
     (aborted rd = false ∧ s ≠ Returned ∧
      pokemons st' = pokemons st ∧ loading st' = loading st ∧ error st' = error st) ∨
     (aborted rd = false ∧ s = Returned ∧
      ∃ err, pokemons st' = [] ∧ loading st' = false ∧ error st' = Some (error_message err)) ∨
     (aborted rd = false ∧ s = Returned ∧
      ∃ x1 x2, pokemons st' = [x1; x2] ∧ loading st' = false ∧ error st' = error st)).
Proof.
  unfold resume. destruct (rounds st !! r) as [rd|] eqn:Hrd; [|done].
  destruct (stage rd) as [a1 a2|m1 m2|] eqn:Hstage; [| |done].
  - destruct (promise_all _ _) as [|p1 p2|err]; [done| |].
    + destruct (aborted rd) eqn:Hab.
      * intros [= <-]. exists rd, Returned.
        split_and!; try done; try (by rewrite Hstage). by left.
      * destruct (attachMove p1 q1 (net st)) as [n1 i1].
        destruct (attachMove p2 q2 n1) as [n2 i2].
        intros [= <-]. exists rd, (AwaitMoves i1 i2).
        split_and!; try done; try (by rewrite Hstage).
        right; left. by split_and!.
    + intros [= <-]. exists rd, Returned. unfold catch_block.
      destruct (aborted rd) eqn:Hab;
        (split_and!; try done; try (by rewrite Hstage)); [by left|].
      right; right; left. split_and!; try done. by exists err.
  - destruct (promise_all _ _) as [|x1 x2|err]; [done| |]; intros [= <-];
      exists rd, Returned.
    + unfold show_pokemons.
      destruct (aborted rd) eqn:Hab;
        (split_and!; try done; try (by rewrite Hstage)); [by left|].
      right; right; right. split_and!; try done. by exists x1, x2.
    + unfold catch_block.
      destruct (aborted rd) eqn:Hab;
        (split_and!; try done; try (by rewrite Hstage)); [by left|].
      right; right; left. split_and!; try done. by exists err.
Qed.

Lemma getTwoRandomPokemons_visible draws st st' :
  getTwoRandomPokemons draws st = Some st' →
  loading st' = true ∧ error st' = None ∧ pokemons st' = pokemons st.
Proof.
  unfold getTwoRandomPokemons.
  destruct (getRandomPokemonIds draws 2 151) as [[|id1 [|id2 ids]]|]; try done.
  destruct (getPokemon id1 (net st)) as [n1 p1].
  destruct (getPokemon id2 n1) as [n2 p2].
  by intros [= <-].
Qed.

Lemma Visible_inv_init : Visible_inv App_init.
Proof. split; simpl; try done. by left. Qed.

Lemma step_Visible_inv e st st' :
  App_inv st → Visible_inv st → step e st = Some st' → Visible_inv st'.
Proof.
  intros Hinv [V1 V2 V3 V4]. destruct e as [draws|h o|r q1 q2|]; simpl.
  - intros Hs. apply getTwoRandomPokemons_visible in Hs as (Hl & He & Hp).
    split; rewrite ?He, ?Hp; try done.
  - intros Hs. apply respond_rounds in Hs as (Href & Hrounds & Hp & Hl & He & _).
    split; rewrite ?Href, ?Hrounds, ?Hp, ?Hl, ?He; done.
  - intros Hs.
    apply resume_cases in Hs as (rd & s & Hrd & Hstage & Href & Hrounds & Hcases).
    assert (Hlive : aborted rd = false → abortControllerRef st = Some r).
    { intros Hab. destruct (decide (abortControllerRef st = Some r)) as [|Hne]; [done|].
      rewrite (inv_superseded _ Hinv r rd Hrd Hne) in Hab. done. }
    assert (Hother : ∀ c rd', c ≠ r → rounds st' !! c = Some rd' → rounds st !! c = Some rd').
    { intros c rd' Hne. rewrite Hrounds. by rewrite list_lookup_alter_ne. }
    assert (Hself : ∀ rd', rounds st' !! r = Some rd' →
                           rd' = {| aborted := aborted rd; stage := s |}).
    { intros rd'. rewrite Hrounds, list_lookup_alter_eq, Hrd. simpl. by intros [= <-]. }
    destruct Hcases as [(Hab & -> & Hp & Hl & He)
                       |[(Hab & Hs & Hp & Hl & He)
                        |[(Hab & -> & err & Hp & Hl & He)
                         |(Hab & -> & x1 & x2 & Hp & Hl & He)]]].
    + split; rewrite ?Hp, ?Hl, ?He, ?Href; try done.
      intros c rd' Hc Hrd' Hab' Hst'. destruct (decide (c = r)) as [->|Hne].
      * apply Hself in Hrd' as ->. simpl in Hab'. congruence.
      * eapply V4; eauto.
    + split; rewrite ?Hp, ?Hl, ?He, ?Href; try done.
      intros c rd' Hc Hrd' Hab' Hst'. destruct (decide (c = r)) as [->|Hne].
      * by eapply (V4 r rd).
      * eapply V4; eauto.
    + split; rewrite ?Hp, ?Hl, ?He, ?Href; try done; [by left|].
      intros c rd' Hc Hrd' Hab' Hst'. destruct (decide (c = r)) as [->|Hne].
      * apply Hself in Hrd' as ->. done.
      * apply Hlive in Hab. congruence.
    + assert (Herr : error st = None).
      { apply (V4 r rd); [by apply Hlive | done..]. }
      split; rewrite ?Hp, ?Hl, ?He, ?Href; try done; first [by right | idtac].
  - intros [= <-]. split; simpl; try done.
    intros c rd Hc Hrd Hab Hst.
    apply abort_current_lookup in Hrd as [[Hne _]|[_ Hab']]; congruence.
Qed.

Lemma run_Visible_inv es st st' :
  App_inv st → Visible_inv st → run es st = Some st' → App_inv st' ∧ Visible_inv st'.
Proof.
  revert st. induction es as [|e es IH]; simpl; intros st Hinv Hvis.
  - by intros [= <-].
  - destruct (step e st) as [st1|] eqn:He; [|done].
    apply IH; [by eapply step_App_inv | by eapply step_Visible_inv].
Qed.

(** X13: what is shown together.  In every state of the component: while
    [loading] is on there is no [error]; while there is an [error],
    [pokemons] is empty and [loading] is off; and [pokemons] is either empty
    or exactly two pairs. *)
Theorem shown_state_is_consistent (st : App) :
  App_reachable st →
  (loading st = true → error st = None) ∧
  (error st ≠ None → pokemons st = [] ∧ loading st = false) ∧
  (pokemons st = [] ∨ length (pokemons st) = 2%nat).
Proof.
  intros [es Hes].
  destruct (run_Visible_inv es App_init st App_inv_init Visible_inv_init Hes)
    as [_ [V1 V2 V3 _]].
  split_and!; try done.
  intros Herr. split; [by apply V2|].
  destruct (loading st) eqn:Hl; [|done]. by specialize (V1 eq_refl).
Qed.

Lemma shown_state_is_consistent_witness :
  let st := default App_init
              (run [StartRound [(1 # 2)%Q; (0 # 1)%Q];
                    Response 0 (Failure (ErrorObject "Network Error"));
                    Resume 0 (0 # 1) (0 # 1)] App_init) in
  error st = Some "Network Error" ∧
  (loading st = true → error st = None) ∧
  (error st ≠ None → pokemons st = [] ∧ loading st = false) ∧
  (pokemons st = [] ∨ length (pokemons st) = 2%nat).
Proof.
  split; [reflexivity|].
  apply (shown_state_is_consistent
           (default App_init
              (run [StartRound [(1 # 2)%Q; (0 # 1)%Q];
                    Response 0 (Failure (ErrorObject "Network Error"));
                    Resume 0 (0 # 1) (0 # 1)] App_init))).
  exists [StartRound [(1 # 2)%Q; (0 # 1)%Q];
          Response 0 (Failure (ErrorObject "Network Error"));
          Resume 0 (0 # 1) (0 # 1)]. reflexivity.
Defined.

(** As long as the effect is not cleaned up, the round
    [abortControllerRef] points at has not been aborted. *)
Lemma run_current_live es st st' :
  Forall (λ e, is_cleanup e = false) es →
  (∀ c rd, abortControllerRef st = Some c → rounds st !! c = Some rd → aborted rd = false) →
  run es st = Some st' →
  ∀ c rd, abortControllerRef st' = Some c → rounds st' !! c = Some rd → aborted rd = false.
Proof.
  intros Hes. revert st. induction Hes as [|e es He Hes IH]; simpl; intros st Hlive.
  - by intros [= <-].
  - destruct (step e st) as [st1|] eqn:Hstep; [|done].
    apply IH. clear IH. intros c rd Hc Hrd.
    destruct e as [draws|h o|r q1 q2|]; simpl in Hstep; [| | |done].
    + apply getTwoRandomPokemons_rounds in Hstep as (Href & p1 & p2 & Hrounds).
      rewrite Href in Hc. injection Hc as <-. rewrite Hrounds in Hrd.
      rewrite lookup_app_r in Hrd by (rewrite abort_current_length; lia).
      rewrite abort_current_length, Nat.sub_diag in Hrd. simpl in Hrd.
      by injection Hrd as <-.
    + apply respond_rounds in Hstep as (Href & Hrounds & _).
      rewrite Href in Hc. rewrite Hrounds in Hrd. by eapply Hlive.
    + apply resume_rounds in Hstep as (Href & s & Hrounds).
      rewrite Href in Hc. rewrite Hrounds in Hrd.
      destruct (decide (c = r)) as [->|Hne].
      * rewrite list_lookup_alter_eq in Hrd.
        destruct (rounds st !! r) as [rd0|] eqn:Hrd0; [|done].
        simpl in Hrd. injection Hrd as <-. simpl. by eapply Hlive.
      * rewrite list_lookup_alter_ne in Hrd by done. by eapply Hlive.
Qed.

(** X14: the current round is shown.  As long as the effect is not cleaned
    up: when the round [abortControllerRef] points at stands at its second
    [await] and both pairs are there, it resumes, shows exactly these two
    pairs in order, turns [loading] off, and there is no [error]. *)
Theorem current_round_is_shown
    (es : list Event) (st : App) (c : nat) (rd : Round) (m1 m2 : Inner)
    (x1 x2 : PokemonWithMove) (q1 q2 : Q) :
  run es App_init = Some st →
  Forall (λ e, is_cleanup e = false) es →
  abortControllerRef st = Some c →
  rounds st !! c = Some rd →
  stage rd = AwaitMoves m1 m2 →
  inner_input (net st) m1 = InFulfilled x1 →
  inner_input (net st) m2 = InFulfilled x2 →
  ∃ st', resume c q1 q2 st = Some st' ∧
    pokemons st' = [x1; x2] ∧ loading st' = false ∧ error st' = None ∧
    net st' = net st.
Proof.
  intros Hrun Hes Hc Hrd Hstage H1 H2.
  assert (Hab : aborted rd = false).
  { eapply (run_current_live es App_init st); eauto. simpl. done. }
  destruct (run_Visible_inv es App_init st App_inv_init Visible_inv_init Hrun)
    as [_ [_ _ _ V4]].
  assert (Herr : error st = None).
  { apply (V4 c rd); try done. rewrite Hstage. done. }
  unfold resume. rewrite Hrd, Hstage, H1, H2. simpl.
  eexists. split; [done|]. unfold show_pokemons. rewrite Hab. simpl. done.
Qed.

Lemma current_round_is_shown_witness :
  let st := default App_init
              (run [StartRound [(1 # 2)%Q; (0 # 1)%Q];
                    Response 0 (Success (PokemonData pikachu));
                    Response 1 (Success (PokemonData moveless));
                    Resume 0 (0 # 1) (0 # 1);
                    Response 2 (Success (MoveData (Some 40)))] App_init) in
  ∃ st', resume 0 (0 # 1) (0 # 1) st = Some st' ∧
    pokemons st' =
      [{| pokemon := pikachu;
          move := VMove {| Move.name := "thunder-shock"; Move.power := Some 40 |} |};
       {| pokemon := moveless; move := VMove no_moves_available |}] ∧
    loading st' = false ∧ error st' = None ∧ net st' = net st.
Proof.
  eapply (current_round_is_shown
           [StartRound [(1 # 2)%Q; (0 # 1)%Q];
            Response 0 (Success (PokemonData pikachu));
            Response 1 (Success (PokemonData moveless));
            Resume 0 (0 # 1) (0 # 1);
            Response 2 (Success (MoveData (Some 40)))]).
  - reflexivity.
  - repeat constructor.
  - reflexivity.
  - reflexivity.
  - reflexivity.
  - reflexivity.
  - reflexivity.
Defined.

(** X15: the failure of the current round is shown.  As long as the effect
    is not cleaned up: when the [Promise.all] that the round
    [abortControllerRef] points at awaits is rejected, at the first [await]
    or at the second, the round resumes, shows the message of the error (or
    "Failed to fetch Pokémon" for a thrown value that is not an [Error]),
    empties [pokemons], turns [loading] off, and starts no request. *)
Theorem current_round_failure_is_shown
    (es : list Event) (st : App) (c : nat) (rd : Round) (err : Thrown) (q1 q2 : Q) :
  run es App_init = Some st →
  Forall (λ e, is_cleanup e = false) es →
  abortControllerRef st = Some c →
  rounds st !! c = Some rd →
  match stage rd with
  | AwaitPokemons a1 a2 =>
      promise_all (promise_input (net st) a1) (promise_input (net st) a2) = AllRejected err
  | AwaitMoves m1 m2 =>
      promise_all (inner_input (net st) m1) (inner_input (net st) m2) = AllRejected err
  | Returned => False
  end →
  ∃ st', resume c q1 q2 st = Some st' ∧
    error st' = Some (match err with
                      | ErrorObject message => message
                      | NotAnError => "Failed to fetch Pokémon"
                      end) ∧
    pokemons st' = [] ∧ loading st' = false ∧ net st' = net st.
Proof.
  intros Hrun Hes Hc Hrd Hrej.
  assert (Hab : aborted rd = false).
  { eapply (run_current_live es App_init st); eauto. simpl. done. }
  unfold resume. rewrite Hrd.
  destruct (stage rd) as [a1 a2|m1 m2|]; [| |done]; rewrite Hrej;
    (eexists; split; [done|]); unfold catch_block; rewrite Hab; simpl; done.
Qed.

Lemma current_round_failure_is_shown_witness :
  let st := default App_init
              (run [StartRound [(1 # 2)%Q; (0 # 1)%Q];
                    Response 1 (Failure (ErrorObject "timeout of 10000ms exceeded"))]
                 App_init) in
  ∃ st', resume 0 (0 # 1) (0 # 1) st = Some st' ∧
    error st' = Some "timeout of 10000ms exceeded" ∧
    pokemons st' = [] ∧ loading st' = false ∧ net st' = net st.
Proof.
  eapply (current_round_failure_is_shown
           [StartRound [(1 # 2)%Q; (0 # 1)%Q];
            Response 1 (Failure (ErrorObject "timeout of 10000ms exceeded"))]
           _ 0 _ (ErrorObject "timeout of 10000ms exceeded")).
  - reflexivity.
  - repeat constructor.
  - reflexivity.
  - reflexivity.
  - reflexivity.
Defined.

Lemma cleanup_all_aborted st :
  App_inv st → ∀ r rd, rounds (cleanup st) !! r = Some rd → aborted rd = true.
Proof.
  intros Hinv r rd Hrd. simpl in Hrd.
  apply abort_current_lookup in Hrd as [[Hne Hrd]|[_ Hab]]; [|done].
  by eapply (inv_superseded _ Hinv).
Qed.

(** X16: after the cleanup.  Once the cleanup of the effect has run, and
    until a new round is started, nothing that happens (responses,
    resumptions, a second cleanup) changes [pokemons], [loading] or
    [error]. *)
Theorem nothing_shown_after_cleanup (st : App) (es : list Event) (st' : App) :
  App_reachable st →
  Forall (λ e, is_start e = false) es →
  run es (cleanup st) = Some st' →
  pokemons st' = pokemons st ∧ loading st' = loading st ∧ error st' = error st.
Proof.
  intros [es0 Hes0] Hes.
  assert (Hinv : App_inv st).
  { eapply run_App_inv; [apply App_inv_init | done]. }
  pose proof (cleanup_all_aborted st Hinv) as Hall.
  change (pokemons st) with (pokemons (cleanup st)).
  change (loading st) with (loading (cleanup st)).
  change (error st) with (error (cleanup st)).
  generalize dependent (cleanup st). clear st es0 Hes0 Hinv.
  induction Hes as [|e es He Hes IH]; simpl; intros st Hall.
  - by intros [= <-].
  - destruct (step e st) as [st1|] eqn:Hstep; [|done]. intros Hrun.
    assert (Hstep1 : (∀ r rd, rounds st1 !! r = Some rd → aborted rd = true) ∧
              pokemons st1 = pokemons st ∧ loading st1 = loading st ∧ error st1 = error st).
    { destruct e as [draws|h o|r q1 q2|]; simpl in Hstep; [done| | |].
      - apply respond_rounds in Hstep as (_ & -> & -> & -> & -> & _). done.
      - apply resume_cases in Hstep as (rd & s & Hrd & _ & _ & Hrounds & Hcases).
        pose proof (Hall r rd Hrd) as Hab. split.
        + intros r' rd'. rewrite Hrounds. destruct (decide (r' = r)) as [->|Hne].
          * rewrite list_lookup_alter_eq, Hrd. simpl. by intros [= <-].
          * rewrite list_lookup_alter_ne by done. apply Hall.
        + destruct Hcases as [(_ & _ & Hp & Hl & Herr)
                             |[(Hab' & _)|[(Hab' & _)|(Hab' & _)]]];
            [done | congruence..].
      - injection Hstep as <-. split; [|done].
        intros r rd Hrd. simpl in Hrd.
        apply abort_current_lookup in Hrd as [[_ Hrd]|[_ Hab]]; [by eapply Hall | done]. }
    destruct Hstep1 as (Hall1 & <- & <- & <-). by apply IH.
Qed.

Lemma nothing_shown_after_cleanup_witness :
  let st := default App_init (run [StartRound [(1 # 2)%Q; (0 # 1)%Q]] App_init) in
  let es := [Response 0 (Success (PokemonData pikachu));
             Response 1 (Success (PokemonData moveless));
             Resume 0 (0 # 1) (0 # 1)] in
  pokemons (default App_init (run es (cleanup st))) = pokemons st ∧
  loading (default App_init (run es (cleanup st))) = loading st ∧
  error (default App_init (run es (cleanup st))) = error st.
Proof.
  apply (nothing_shown_after_cleanup
           (default App_init (run [StartRound [(1 # 2)%Q; (0 # 1)%Q]] App_init))
           [Response 0 (Success (PokemonData pikachu));
            Response 1 (Success (PokemonData moveless));
            Resume 0 (0 # 1) (0 # 1)]).
  - exists [StartRound [(1 # 2)%Q; (0 # 1)%Q]]. reflexivity.
  - repeat constructor.
  - reflexivity.
Defined.

(** *** BattleField: symmetry, the placeholder *)

Section BattleFieldMore.
Import BattleField.
Variable toUpperCase : string → string.

(** X17: the order of the two contestants does not matter.  Swapping the
    two arguments of [determineBattleOutcome] gives the same message. *)
Theorem determineBattleOutcome_symmetric (p1 p2 : PokemonWithMove) :
  determineBattleOutcome toUpperCase p1 p2 = determineBattleOutcome toUpperCase p2 p1.
Proof.
  unfold determineBattleOutcome.
  destruct (Move.power (move p1)) as [a|], (Move.power (move p2)) as [b|]; try done.
  destruct (Z.gtb_spec a b), (Z.gtb_spec b a); try done. lia.
Qed.

Lemma DECISIVE_BLOW_not_LOADING winner move loser :
  DECISIVE_BLOW toUpperCase winner move loser ≠ LOADING.
Proof.
  intros Heq. apply (f_equal (occurs "w")) in Heq.
  unfold DECISIVE_BLOW in Heq. rewrite !occurs_app in Heq.
  replace (occurs "w" " lands a decisive blow with ") with true in Heq by reflexivity.
  replace (occurs "w" LOADING) with false in Heq by reflexivity.
  rewrite orb_true_r in Heq. simpl in Heq. discriminate.
Qed.

Lemma determineBattleOutcome_not_LOADING p1 p2 :
  determineBattleOutcome toUpperCase p1 p2 ≠ LOADING.
Proof.
  unfold determineBattleOutcome.
  destruct (Move.power (move p1)) as [a|], (Move.power (move p2)) as [b|];
    repeat case_match; first [apply DECISIVE_BLOW_not_LOADING | discriminate].
Qed.

Lemma isValidBattle_false (pokemons : list PokemonWithMove) :
  isValidBattle pokemons = false
  ↔ (length pokemons < 2)%nat ∨
    Exists (λ p, name (pokemon p) = "" ∨ Move.name (move p) = "") pokemons.
Proof.
  unfold isValidBattle. rewrite andb_false_iff, Nat.leb_gt.
  assert (Hall : forallb (λ p, negb (String.eqb (name (pokemon p)) "") &&
                               negb (String.eqb (Move.name (move p)) "") && true) pokemons = false
                 ↔ Exists (λ p, name (pokemon p) = "" ∨ Move.name (move p) = "") pokemons).
  { induction pokemons as [|p ps IH]; simpl.
    - split; [done | by intros ?%Exists_nil].
    - rewrite Exists_cons, andb_false_iff, IH, andb_true_r, andb_false_iff,
        !negb_false_iff, !String.eqb_eq. done. }
  by rewrite Hall.
Qed.

(** X19: the placeholder.  [battleOutcome] is the text "Preparing for
    battle..." exactly when there are fewer than two entries or some entry
    has an empty pokemon name or an empty move name; otherwise it is the
    outcome of the first two entries, whatever follows them. *)
Theorem battleOutcome_placeholder (pokemons : list PokemonWithMove) :
  (battleOutcome toUpperCase pokemons = LOADING
   ↔ (length pokemons < 2)%nat ∨
     Exists (λ p, name (pokemon p) = "" ∨ Move.name (move p) = "") pokemons) ∧
  (∀ p1 p2 rest, pokemons = p1 :: p2 :: rest →
     battleOutcome toUpperCase pokemons ≠ LOADING →
     battleOutcome toUpperCase pokemons = determineBattleOutcome toUpperCase p1 p2).
Proof.
  rewrite <- isValidBattle_false. unfold battleOutcome.
  destruct (isValidBattle pokemons) eqn:Hvalid; simpl.
  - split.
    + split; [|done]. intros Hout. exfalso.
      destruct pokemons as [|p1 [|p2 rest]]; try done.
      by apply determineBattleOutcome_not_LOADING in Hout.
    + by intros p1 p2 rest ->.
  - split; [done|]. by intros p1 p2 rest _ Hne.
Qed.

End BattleFieldMore.

Lemma battleOutcome_placeholder_witness :
  let A := BattleField.contestant "pikachu" "thunder-shock" (Some 80) in
  let B := BattleField.contestant "onix" "rock-throw" None in
  let C := BattleField.contestant "mew" "pound" (Some 40) in
  BattleField.battleOutcome BattleField.ascii_toUpperCase [A; B; C]
  = BattleField.determineBattleOutcome BattleField.ascii_toUpperCase A B.
Proof.
  intros A B C.
  apply (proj2 (battleOutcome_placeholder BattleField.ascii_toUpperCase [A; B; C]) A B [C]).
  - reflexivity.
  - vm_compute. discriminate.
Defined.

(** *** The component: how many requests a step starts *)

Lemma resolve_requests_length p st :
  (length (requests st) ≤ length (requests (resolve p st).1) ≤ S (length (requests st)))%nat.
Proof.
  destruct (resolve_requests p st) as [-> | [_ ->]]; [lia|].
  rewrite length_app. simpl. lia.
Qed.

Lemma attachMove_requests_length p q st :
  (length (requests st) ≤ length (requests (attachMove p q st).1) ≤ S (length (requests st)))%nat.
Proof.
  unfold attachMove. destruct p as [p|m]; [|simpl; lia].
  case_decide; [simpl; lia|].
  destruct (array_get _ _) as [randomMove|]; [|simpl; lia].
  pose proof (resolve_requests_length
                (FetchMove (ref_url randomMove) (ref_name randomMove)) st) as Hlen.
  simpl in Hlen. by destruct (getMove _ _ st).
Qed.

(** X20: at most two requests at a time.  The start of a round starts at
    most two requests, the resumption of a round at most two, and a response
    or a cleanup none; no step ever removes a request from the record. *)
Theorem step_starts_at_most_two_requests (e : Event) (st st' : App) :
  step e st = Some st' →
  (length (requests (net st)) ≤ length (requests (net st'))
   ≤ length (requests (net st)) + 2)%nat ∧
  match e with
  | Response _ _ | Cleanup => length (requests (net st')) = length (requests (net st))
  | StartRound _ | Resume _ _ _ => True
  end.
Proof.
  destruct e as [draws|h o|r q1 q2|]; simpl.
  - unfold getTwoRandomPokemons.
    destruct (getRandomPokemonIds draws 2 151) as [[|id1 [|id2 ids]]|]; try done.
    pose proof (resolve_requests_length (FetchPokemon id1) (net st)) as H1. simpl in H1.
    destruct (getPokemon id1 (net st)) as [n1 p1].
    pose proof (resolve_requests_length (FetchPokemon id2) n1) as H2. simpl in H2.
    destruct (getPokemon id2 n1) as [n2 p2].
    intros [= <-]. simpl in *. split; [lia | done].
  - intros Hs. apply respond_rounds in Hs as (_ & _ & _ & _ & _ & Hs).
    apply settle_requests in Hs as (p & s & _ & _ & ->).
    rewrite length_insert. split; [lia | done].
  - intros Hs. split; [|done].
    revert Hs. unfold resume. destruct (rounds st !! r) as [rd|]; [|done].
    destruct (stage rd) as [a1 a2|m1 m2|]; [| |done].
    + destruct (promise_all _ _) as [|p1 p2|err]; [done| |].
      * destruct (aborted rd); [intros [= <-]; simpl; lia|].
        pose proof (attachMove_requests_length p1 q1 (net st)) as H1.
        destruct (attachMove p1 q1 (net st)) as [n1 i1].
        pose proof (attachMove_requests_length p2 q2 n1) as H2.
        destruct (attachMove p2 q2 n1) as [n2 i2].
        intros [= <-]. simpl in *. lia.
      * intros [= <-]. unfold catch_block. destruct (aborted rd); simpl; lia.
    + destruct (promise_all _ _) as [|x1 x2|err]; [done| |]; intros [= <-].
      * unfold show_pokemons. destruct (aborted rd); simpl; lia.
      * unfold catch_block. destruct (aborted rd); simpl; lia.
  - intros [= <-]. simpl. split; [lia | done].
Qed.

Lemma step_starts_at_most_two_requests_witness :
  let st' := default App_init (step (StartRound [(1 # 2)%Q; (0 # 1)%Q]) App_init) in
  (length (requests (net App_init)) ≤ length (requests (net st'))
   ≤ length (requests (net App_init)) + 2)%nat ∧ True.
Proof.
  apply (step_starts_at_most_two_requests (StartRound [(1 # 2)%Q; (0 # 1)%Q]) App_init).
  reflexivity.
Defined.
